(** * mt_vault: a fixed-capacity slot pool (class [Vault] of my_vault.h)

    Shallow embedding of [Vault<ElementData, COUNT>] as one thread executes
    it.  The storage [std::array<Element, COUNT>] is a list of [Element]s
    whose length is the capacity; a pointer or array iterator into the
    storage is the index of the slot it points at.  Every member function is
    a computation over the storage in a small state-and-error monad whose
    outcomes are a normal return, a thrown exception, a [lock()] on a mutex
    that is already held (with one thread running, held by a view of that
    thread, which then waits for itself), the dereference of a pointer that
    points at no slot, and a loop cut short by its fuel.

    The functions are those of the LOCK_FREE setting the header selects;
    the ones compiled when LOCK_FREE is 0 carry the prefix [coarse_]. *)

From stdpp Require Import base numbers option list sorting strings pretty.

(** ** Outcomes of a call *)

(** The two places that throw [std::out_of_range]. *)
Inductive exception : Set :=
  | OutOfRange    (* thrown by [std::array::at] *)
  | EmptyAccess.  (* [throw std::out_of_range {"no such data"}] in [operator()] *)

Inductive outcome (S A : Type) : Type :=
  | Returns (a : A) (s : S)         (* normal return, with the state it leaves *)
  | Throws (e : exception) (s : S)  (* exception, with the state after unwinding *)
  | Deadlock                        (* [lock()] on a mutex the thread already holds *)
  | Undefined                       (* [p->...] where [p] points at no slot *)
  | Unfinished.                     (* a loop was cut after its fuel: no answer *)

Arguments Returns {S A} a s.
Arguments Throws {S A} e s.
Arguments Deadlock {S A}.
Arguments Undefined {S A}.
Arguments Unfinished {S A}.

Definition M (S A : Type) : Type := S -> outcome S A.

Definition ret {S A} (a : A) : M S A := fun s => Returns a s.

Definition throw {S A} (e : exception) : M S A := fun s => Throws e s.

Definition bind {S A B} (m : M S A) (k : A -> M S B) : M S B :=
  fun s =>
    match m s with
    | Returns a s' => k a s'
    | Throws e s' => Throws e s'
    | Deadlock => Deadlock
    | Undefined => Undefined
    | Unfinished => Unfinished
    end.

(** [finally m cleanup]: the destructor of a scoped object runs when the
    scope is left, by a return or by an exception. *)
Definition finally {S A} (m : M S A) (cleanup : S -> S) : M S A :=
  fun s =>
    match m s with
    | Returns a s' => Returns a (cleanup s')
    | Throws e s' => Throws e (cleanup s')
    | Deadlock => Deadlock
    | Undefined => Undefined
    | Unfinished => Unfinished
    end.

Declare Scope vault_scope.
Delimit Scope vault_scope with vault.
Notation "x <- m ;; k" := (bind m (fun x => k))
  (at level 100, m at next level, right associativity) : vault_scope.
Open Scope vault_scope.

(** [do { body } while (true)]: [body] answers [Some a] when it returns [a]
    from the function and [None] when control reaches the loop condition.
    The outcome is [Unfinished] only when [fuel] rounds were not enough. *)
Fixpoint do_while {S A} (fuel : nat) (body : M S (option A)) : M S A :=
  match fuel with
  | 0 => fun _ => Unfinished
  | S fuel' =>
      r <- body ;;
      match r with
      | Some a => ret a
      | None => do_while fuel' body
      end
  end.

(** [respects R m]: whatever state [m] leaves, by return or by exception,
    is related by [R] to the state it started from. *)
Definition respects {S A} (R : S -> S -> Prop) (m : M S A) : Prop :=
  forall s, match m s with
            | Returns _ s' | Throws _ s' => R s s'
            | _ => True
            end.

(** ** std algorithms and atomics *)

(** [std::ranges::find_if(range, p)]: the position of the first element
    satisfying [p], the end position (the length) when there is none. *)
Fixpoint find_if {A} (p : A -> bool) (l : list A) : nat :=
  match l with
  | [] => 0
  | x :: l' => if p x then 0 else S (find_if p l')
  end.

Definition find_if_not {A} (p : A -> bool) (l : list A) : nat :=
  find_if (fun x => negb (p x)) l.

(** [std::find_if(first, end, p)] with [first] at position [start]. *)
Definition find_if_from {A} (p : A -> bool) (start : nat) (l : list A) : nat :=
  start + find_if p (drop start l).

Section Vault.
Context {ElementData : Type}.

(** ** struct Element *)
Record Element : Type := mkElement {
  data : ElementData;
  access : bool;  (* [std::mutex access]: [true] while it is held *)
  inUse : bool    (* [std::atomic_bool inUse], a plain [bool] when not LOCK_FREE *)
}.

Definition set_access (b : bool) (e : Element) : Element :=
  {| data := data e; access := b; inUse := inUse e |}.

Definition set_inUse (b : bool) (e : Element) : Element :=
  {| data := data e; access := access e; inUse := b |}.

Definition set_data (d : ElementData) (e : Element) : Element :=
  {| data := d; access := access e; inUse := inUse e |}.

(** [std::array<Element, COUNT> storage] *)
Abbreviation Storage := (list Element) (only parsing).

Definition capacity (st : Storage) : nat := length st.

(** A freshly constructed vault: payloads default-constructed, no mutex
    held, [inUse {false}]. *)
Definition fresh (COUNT : nat) (d0 : ElementData) : Storage :=
  replicate COUNT {| data := d0; access := false; inUse := false |}.

(** [p->member] for a pointer [p] that is null ([None]) or a slot index. *)
Definition through {A} (p : option nat) (f : nat -> Element -> M Storage A)
  : M Storage A :=
  fun st =>
    match p with
    | None => Undefined
    | Some i =>
        match st !! i with
        | None => Undefined
        | Some e => f i e st
        end
    end.

(** [storage.at(idx)] *)
Definition array_at (idx : nat) : M Storage nat :=
  fun st => if decide (idx < length st) then Returns idx st else Throws OutOfRange st.

(** [std::mutex::lock] and [unlock] on the mutex of slot [i]. *)
Definition mutex_lock (i : nat) : M Storage unit :=
  through (Some i) (fun i e st =>
    if access e then Deadlock else Returns () (<[i := set_access true e]> st)).

Definition mutex_unlock (i : nat) (st : Storage) : Storage :=
  alter (set_access false) i st.

(** [inUse.compare_exchange_strong(expected, desired)] on slot [i]. *)
Definition compare_exchange_strong (i : nat) (expected desired : bool)
  : M Storage bool :=
  through (Some i) (fun i e st =>
    if bool_decide (inUse e = expected)
    then Returns true (<[i := set_inUse desired e]> st)
    else Returns false st).

(** [inUse.compare_exchange_weak(expected, desired)]: "a weak
    compare-and-exchange operation may fail spuriously" (C++
    [atomics.types.operations]); [spurious] says whether this one does. *)
Definition compare_exchange_weak (spurious : bool) (i : nat)
    (expected desired : bool) : M Storage bool :=
  if spurious then ret false else compare_exchange_strong i expected desired.

(** [std::exchange(inUse, b)] on slot [i]. *)
Definition exchange_inUse (i : nat) (b : bool) : M Storage bool :=
  through (Some i) (fun i e st => Returns (inUse e) (<[i := set_inUse b e]> st)).

(** [inUse = b] on slot [i]. *)
Definition store_inUse (i : nat) (b : bool) : M Storage unit :=
  through (Some i) (fun i e st => Returns () (<[i := set_inUse b e]> st)).

(** ** class ElementView *)
Record ElementView : Type := mkView {
  lock : option nat;  (* [std::unique_lock]: the slot whose mutex it owns *)
  ref : option nat    (* [Element* ref {nullptr}] *)
}.

(** [ElementView( ) = default] *)
Definition ElementView_default : ElementView := {| lock := None; ref := None |}.

(** [explicit ElementView(Element& e) : lock {e.access}, ref {&e}] *)
Definition ElementView_ctor (i : nat) : M Storage ElementView :=
  _ <- mutex_lock i ;; ret {| lock := Some i; ref := Some i |}.

(** The destructor: [~unique_lock] releases the mutex it owns. *)
Definition ElementView_dtor (v : ElementView) (st : Storage) : Storage :=
  match lock v with
  | Some i => mutex_unlock i st
  | None => st
  end.

(** A view that lives for one block. *)
Definition scoped_view {A} (i : nat) (body : ElementView -> M Storage A)
  : M Storage A :=
  v <- ElementView_ctor i ;; finally (body v) (ElementView_dtor v).

(** [ElementData& operator( ) ( )]: the payload behind the reference. *)
Definition operator_call (v : ElementView) : M Storage ElementData :=
  through (ref v) (fun i e =>
    if inUse e then ret (data e) else throw EmptyAccess).

(** [v( ) = d]: a store through the reference [operator()] returns. *)
Definition assign (v : ElementView) (d : ElementData) : M Storage unit :=
  through (ref v) (fun i e st =>
    if inUse e then Returns () (<[i := set_data d e]> st)
    else Throws EmptyAccess st).

(** [operator bool ( ) const { return ref && ref->inUse; }] *)
Definition operator_bool (v : ElementView) : M Storage bool :=
  match ref v with
  | None => ret false
  | Some i => through (Some i) (fun _ e => ret (inUse e))
  end.

(** [ElementView view (size_t idx)] *)
Definition view (idx : nat) : M Storage ElementView :=
  i <- array_at idx ;; ElementView_ctor i.

(** ** allocate, LOCK_FREE *)

(** One round of the [do ... while ( true )] of [allocate]. *)
Definition allocate_round : M Storage (option (ElementView * bool)) :=
  fun st =>
    let i := find_if_not inUse st in
    if decide (i = length st) then Returns (Some (ElementView_default, false)) st
    else
      (v <- ElementView_ctor i ;;
       swapped <- compare_exchange_strong i false true ;;
       if swapped : bool then ret (Some (v, true))
       else fun st' => Returns None (ElementView_dtor v st')) st.

Definition allocate (fuel : nat) : M Storage (ElementView * bool) :=
  do_while fuel allocate_round.

(** ** deallocate (size_t idx), LOCK_FREE *)
Definition deallocate (idx : nat) : M Storage bool :=
  i <- array_at idx ;;
  scoped_view i (fun e =>
    through (ref e) (fun r _ => compare_exchange_strong r true false)).

(** ** deallocate (pred), LOCK_FREE *)

(** The body of [for ( auto& e: storage )] at slot [i].  It answers
    whether [pred] was called and whether the function returns [true]
    from here. *)
Definition deallocate_pred_visit (spurious : nat -> bool)
    (pred : ElementData -> bool) (i : nat) : M Storage (bool * bool) :=
  scoped_view i (fun v =>
    live <- operator_bool v ;;
    if live : bool then
      d <- operator_call v ;;
      if pred d then
        swapped <- compare_exchange_weak (spurious i) i true false ;;
        ret (true, swapped)
      else ret (true, false)
    else ret (false, false)).

(** The range-for over the slots [idxs]; the answer carries the indices
    of the slots [pred] was called on, in call order. *)
Fixpoint deallocate_pred_for (spurious : nat -> bool)
    (pred : ElementData -> bool) (idxs : list nat) : M Storage (bool * list nat) :=
  match idxs with
  | [] => ret (false, [])
  | i :: idxs' =>
      r <- deallocate_pred_visit spurious pred i ;;
      let called := if r.1 then [i] else [] in
      if r.2 then ret (true, called)
      else
        r' <- deallocate_pred_for spurious pred idxs' ;;
        ret (r'.1, called ++ r'.2)
  end.

Definition deallocate_pred (spurious : nat -> bool) (pred : ElementData -> bool)
  : M Storage (bool * list nat) :=
  fun st => deallocate_pred_for spurious pred (seq 0 (length st)) st.

(** ** struct iterator, begin, end *)
Record iterator : Type := mkIterator {
  iter : nat  (* [std::array<Element, COUNT>::iterator iter], a position *)
}.

(** [iterator begin ( )] *)
Definition begin : M Storage iterator :=
  fun st => Returns {| iter := find_if inUse st |} st.

(** [iterator end ( )]: [i.iter = storage.end( )] *)
Definition end_ : M Storage iterator :=
  fun st => Returns {| iter := length st |} st.

(** [iterator& operator++ ( )] *)
Definition operator_incr (it : iterator) : M Storage iterator :=
  fun st => Returns {| iter := find_if_from inUse (iter it + 1) st |} st.

(** [value_type operator* ( ) { return ElementView {*iter}; }] *)
Definition operator_star (it : iterator) : M Storage ElementView :=
  ElementView_ctor (iter it).

(** [bool operator== (const iterator& o) const] *)
Definition operator_eq (it o : iterator) : bool := bool_decide (iter it = iter o).

(** The loop the std algorithms of the tests run over the vault,
    [for ( ; !(it == end( )); ++it ) f( *it );], collecting what [f]
    answers.  The view [*it] is a temporary of the call of [f]. *)
Fixpoint traverse_from {A} (fuel : nat) (f : ElementView -> M Storage A)
    (it : iterator) : M Storage (list A) :=
  match fuel with
  | 0 => fun _ => Unfinished
  | S fuel' =>
      last <- end_ ;;
      if operator_eq it last then ret []
      else
        a <- (v <- operator_star it ;; finally (f v) (ElementView_dtor v)) ;;
        it' <- operator_incr it ;;
        rest <- traverse_from fuel' f it' ;;
        ret (a :: rest)
  end.

Definition traverse {A} (fuel : nat) (f : ElementView -> M Storage A)
  : M Storage (list A) :=
  first <- begin ;; traverse_from fuel f first.

(** ** The variant compiled when LOCK_FREE is 0 *)

(** The vault then has a mutex of its own, [std::mutex access], beside the
    storage. *)
Record CoarseVault : Type := mkCoarse {
  storage : Storage;
  Vault_access : bool  (* [std::mutex access] of [Vault]: [true] while held *)
}.

(** A member function working on [storage]. *)
Definition on_storage {A} (m : M Storage A) : M CoarseVault A :=
  fun v =>
    match m (storage v) with
    | Returns a st => Returns a {| storage := st; Vault_access := Vault_access v |}
    | Throws e st => Throws e {| storage := st; Vault_access := Vault_access v |}
    | Deadlock => Deadlock
    | Undefined => Undefined
    | Unfinished => Unfinished
    end.

Definition Vault_lock : M CoarseVault unit :=
  fun v =>
    if Vault_access v then Deadlock
    else Returns () {| storage := storage v; Vault_access := true |}.

Definition Vault_unlock (v : CoarseVault) : CoarseVault :=
  {| storage := storage v; Vault_access := false |}.

(** [std::unique_lock _ {access};] for the rest of the function body. *)
Definition scoped_lock {A} (body : M CoarseVault A) : M CoarseVault A :=
  _ <- Vault_lock ;; finally body Vault_unlock.

Definition coarse_allocate : M CoarseVault (ElementView * bool) :=
  scoped_lock (on_storage (fun st =>
    let i := find_if_not inUse st in
    if decide (i = length st) then Returns (ElementView_default, false) st
    else
      (v <- ElementView_ctor i ;;
       _ <- store_inUse i true ;;
       ret (v, true)) st)).

Definition coarse_deallocate (idx : nat) : M CoarseVault bool :=
  scoped_lock (on_storage (
    i <- array_at idx ;;
    scoped_view i (fun e =>
      through (ref e) (fun r _ => exchange_inUse r false)))).

(** One round of the [do ... while ( true )] of the predicate release;
    [continue] is the answer [None]. *)
Definition coarse_deallocate_pred_round (pred : ElementData -> bool)
  : M CoarseVault (option bool) :=
  on_storage (fun st =>
    let i := find_if (fun e => inUse e && pred (data e)) st in
    if decide (i = length st) then Returns (Some false) st
    else
      (_ <- mutex_lock i ;;
       finally
         (through (Some i) (fun i e =>
            if negb (pred (data e)) then ret None
            else r <- exchange_inUse i false ;; ret (Some r)))
         (mutex_unlock i)) st).

Definition coarse_deallocate_pred (fuel : nat) (pred : ElementData -> bool)
  : M CoarseVault bool :=
  scoped_lock (do_while fuel (coarse_deallocate_pred_round pred)).

(** ** Calls in sequence

    A statement of a single thread calling the vault, as the tests write
    them.  A view a statement obtains is a local of it, destroyed when the
    statement ends; an exception the call throws is caught by the caller. *)
Inductive call : Type :=
  | Allocate
      (* [{ auto [v, inserted] = vault.allocate( ); }] *)
  | Deallocate (idx : nat)
      (* [vault.deallocate(idx);] *)
  | DeallocatePred (pred : ElementData -> bool) (spurious : nat -> bool)
      (* [vault.deallocate(pred);] *)
  | View (idx : nat)
      (* [{ auto v = vault.view(idx); if ( v ) read v( ); }] *)
  | Write (idx : nat) (d : ElementData)
      (* [{ auto v = vault.view(idx); if ( v ) v( ) = d; }] *)
  | Iterate
      (* [for ( ; !(it == end( )); ++it ) read ( *it )( );] *)
  | Capacity.
      (* [vault.capacity( );] *)

(** What the caller sees of a statement. *)
Inductive answer : Type :=
  | Allocated (slot : option nat) (inserted : bool)
  | Deallocated (freed : bool)
  | Viewed (slot : option nat) (payload : option ElementData)
  | Written (slot : option nat) (live : bool)
  | Iterated (seen : list (option nat * ElementData))
  | CapacityIs (n : nat)
  | Caught (e : exception).

(** [try { m } catch ( const std::out_of_range& ) { }] *)
Definition try_catch {S} (m : M S answer) : M S answer :=
  fun s =>
    match m s with
    | Throws e s' => Returns (Caught e) s'
    | o => o
    end.

Definition read_view (v : ElementView) : M Storage (option ElementData) :=
  live <- operator_bool v ;;
  if live : bool then d <- operator_call v ;; ret (Some d) else ret None.

Definition write_view (d : ElementData) (v : ElementView) : M Storage bool :=
  live <- operator_bool v ;;
  if live : bool then _ <- assign v d ;; ret true else ret false.

Definition visit (v : ElementView) : M Storage (option nat * ElementData) :=
  d <- operator_call v ;; ret (ref v, d).

(** The statements that are the same text under both settings of
    LOCK_FREE. *)
Definition statement_view (idx : nat) : M Storage answer :=
  v <- view idx ;;
  finally (p <- read_view v ;; ret (Viewed (ref v) p)) (ElementView_dtor v).

Definition statement_write (idx : nat) (d : ElementData) : M Storage answer :=
  v <- view idx ;;
  finally (b <- write_view d v ;; ret (Written (ref v) b)) (ElementView_dtor v).

Definition statement_iterate (fuel : nat) : M Storage answer :=
  seen <- traverse fuel visit ;; ret (Iterated seen).

Definition statement (fuel : nat) (c : call) : M Storage answer :=
  try_catch
    match c with
    | Allocate =>
        r <- allocate fuel ;;
        fun st => Returns (Allocated (ref r.1) r.2) (ElementView_dtor r.1 st)
    | Deallocate idx => b <- deallocate idx ;; ret (Deallocated b)
    | DeallocatePred pred spurious =>
        r <- deallocate_pred spurious pred ;; ret (Deallocated r.1)
    | View idx => statement_view idx
    | Write idx d => statement_write idx d
    | Iterate => statement_iterate fuel
    | Capacity => fun st => Returns (CapacityIs (capacity st)) st
    end.

Definition coarse_statement (fuel : nat) (c : call) : M CoarseVault answer :=
  try_catch
    match c with
    | Allocate =>
        r <- coarse_allocate ;;
        on_storage (fun st =>
          Returns (Allocated (ref r.1) r.2) (ElementView_dtor r.1 st))
    | Deallocate idx => b <- coarse_deallocate idx ;; ret (Deallocated b)
    | DeallocatePred pred _ =>
        b <- coarse_deallocate_pred fuel pred ;; ret (Deallocated b)
    | View idx => on_storage (statement_view idx)
    | Write idx d => on_storage (statement_write idx d)
    | Iterate => on_storage (statement_iterate fuel)
    | Capacity => on_storage (fun st => Returns (CapacityIs (capacity st)) st)
    end.

(** The statements of a list one after the other. *)
Fixpoint run {S} (step : call -> M S answer) (cs : list call) : M S (list answer) :=
  match cs with
  | [] => ret []
  | c :: cs' => a <- step c ;; rest <- run step cs' ;; ret (a :: rest)
  end.

(** ** Observations used by the statements below *)

Definition occupied (st : Storage) (i : nat) : bool :=
  match st !! i with
  | Some e => inUse e
  | None => false
  end.

Definition count_occupied (st : Storage) : nat :=
  length (filter (fun e => inUse e = true) st).

Definition occupied_indices (st : Storage) : list nat :=
  filter (fun i => occupied st i = true) (seq 0 (length st)).

(** Whether the visit of slot [i] by [deallocate (pred)] ends the call: the
    slot is occupied, its payload satisfies [pred], and the weak
    compare-and-exchange does not fail spuriously. *)
Definition released (spurious : nat -> bool) (pred : ElementData -> bool)
    (st : Storage) (i : nat) : bool :=
  match st !! i with
  | Some e => inUse e && pred (data e) && negb (spurious i)
  | None => false
  end.

(** What a traversal sees at slot [i]: nothing at a free slot, the slot and
    its payload at an occupied one. *)
Definition seen_at (st : Storage) (i : nat) : option (option nat * ElementData) :=
  match st !! i with
  | Some e => if inUse e then Some (Some i, data e) else None
  | None => None
  end.

(** What a statement does when it starts with no mutex held: the answer
    the caller sees and the storage it leaves.  [statement_effect] and
    [coarse_statement_effect] derive it from the member functions. *)
Definition effect (c : call) (st : Storage) : answer * Storage :=
  match c with
  | Allocate =>
      let i := find_if_not inUse st in
      match st !! i with
      | None => (Allocated None false, st)
      | Some e => (Allocated (Some i) true, <[i := set_inUse true e]> st)
      end
  | Deallocate idx =>
      match st !! idx with
      | None => (Caught OutOfRange, st)
      | Some e => (Deallocated (inUse e), <[idx := set_inUse false e]> st)
      end
  | DeallocatePred pred spurious =>
      let i := find_if (released spurious pred st) (seq 0 (length st)) in
      match st !! i with
      | None => (Deallocated false, st)
      | Some e => (Deallocated true, <[i := set_inUse false e]> st)
      end
  | View idx =>
      match st !! idx with
      | None => (Caught OutOfRange, st)
      | Some e => (Viewed (Some idx) (if inUse e then Some (data e) else None), st)
      end
  | Write idx d =>
      match st !! idx with
      | None => (Caught OutOfRange, st)
      | Some e =>
          (Written (Some idx) (inUse e),
           if inUse e then <[idx := set_data d e]> st else st)
      end
  | Iterate => (Iterated (omap (seen_at st) (seq 0 (length st))), st)
  | Capacity => (CapacityIs (length st), st)
  end.

Fixpoint effects (cs : list call) (st : Storage) : list answer * Storage :=
  match cs with
  | [] => ([], st)
  | c :: cs' =>
      let r := effect c st in
      let rs := effects cs' r.2 in
      (r.1 :: rs.1, rs.2)
  end.

(** No weak compare-and-exchange of the statement fails spuriously. *)
Definition no_spurious_failure (c : call) : Prop :=
  match c with
  | DeallocatePred _ spurious => forall i, spurious i = false
  | _ => True
  end.

(** The storage [st'] holds the payloads [st] holds, slot by slot. *)
Definition same_payloads (st st' : Storage) : Prop :=
  data <$> st' = data <$> st.

(** No mutex of an occupied slot is held: no view is alive on one. *)
Definition traversable (st : Storage) : Prop :=
  forall i e, st !! i = Some e -> inUse e = true -> access e = false.

(** No mutex of a slot is held: no view is alive. *)
Definition quiescent (st : Storage) : Prop :=
  Forall (fun e => access e = false) st.

Definition is_allocation (a : answer) : bool :=
  match a with Allocated _ true => true | _ => false end.

Definition is_deallocation (a : answer) : bool :=
  match a with Deallocated true => true | _ => false end.

Definition successful_allocations (l : list answer) : nat :=
  length (filter (fun a => is_allocation a = true) l).

Definition successful_deallocations (l : list answer) : nat :=
  length (filter (fun a => is_deallocation a = true) l).

(** ** dump *)

(** The text of [fmt::print("{} {}\n", i, fmt::streamed(e.data))];
    [streamed] is [operator<<] of the payload. *)
Definition dump_line (streamed : ElementData -> string) (i : nat)
    (d : ElementData) : string :=
  pretty i +:+ " " +:+ streamed d +:+ String (Ascii.ascii_of_nat 10) "".

(** The body of [for ( size_t i = 0; i < COUNT; i++ )] of [dump] over the
    indices [idxs]; the answer is the texts printed, in order. *)
Fixpoint dump_for (streamed : ElementData -> string) (idxs : list nat)
  : M Storage (list string) :=
  match idxs with
  | [] => ret []
  | i :: idxs' =>
      r <- array_at i ;;
      printed <- through (Some r) (fun _ e =>
                   ret (if inUse e then [dump_line streamed i (data e)] else [])) ;;
      rest <- dump_for streamed idxs' ;;
      ret (printed ++ rest)
  end.

(** [void dump ( ) const] *)
Definition dump (streamed : ElementData -> string) : M Storage (list string) :=
  fun st => dump_for streamed (seq 0 (length st)) st.

(** ** Loops of the tests, run by one thread *)

(** [while ( v->deallocate(pred) ) deallocationsCount.fetch_add(1);]: the
    answer is the count.  [spurious n] is the behaviour of the weak
    compare-and-exchange during call number [n]; [calls] is the number of
    calls made so far. *)
Fixpoint drain (fuel : nat) (spurious : nat -> nat -> bool)
    (pred : ElementData -> bool) (calls : nat) : M Storage nat :=
  match fuel with
  | 0 => fun _ => Unfinished
  | S fuel' =>
      r <- deallocate_pred (spurious calls) pred ;;
      if r.1 then n <- drain fuel' spurious pred (S calls) ;; ret (S n)
      else ret 0
  end.

(** The occupied slots whose payload satisfies [pred]. *)
Definition matches (pred : ElementData -> bool) (e : Element) : bool :=
  inUse e && pred (data e).

Definition count_matching (pred : ElementData -> bool) (st : Storage) : nat :=
  length (filter (fun e => matches pred e = true) st).

(** The storage with every occupied slot satisfying [pred] set free. *)
Definition drained (pred : ElementData -> bool) (st : Storage) : Storage :=
  (fun e => if matches pred e then set_inUse false e else e) <$> st.

(** Every slot is free. *)
Definition vacant (st : Storage) : Prop :=
  forall i, occupied st i = false.

(** The storage [st'] has the mutexes held that [st] has, slot by slot. *)
Definition same_locks (st st' : Storage) : Prop :=
  access <$> st' = access <$> st.

(** A call whose returned view is destroyed at the end of the statement. *)
Definition discard {A} (m : M Storage (ElementView * A)) : M Storage A :=
  r <- m ;; fun st => Returns r.2 (ElementView_dtor r.1 st).

End Vault.

Arguments Element : clear implicits.
Abbreviation Storage D := (list (Element D)) (only parsing).

(** ** The payload of the tests *)

(** [struct Data { int field_1 {0}; std::string field_3; };] *)
Record Data : Type := mkData {
  field_1 : Z;
  field_3 : string
}.

(** [[] (const Data& d) { return d.field_3.starts_with("2_"); }] *)
Definition prefix_pred (d : Data) : bool := String.prefix "2_" (field_3 d).

(** A slot as [allocate] and the writes of the tests leave it once the
    view is gone. *)
Definition filled (name : string) : Element Data :=
  {| data := {| field_1 := 0; field_3 := name |}; access := false; inUse := true |}.

(** A slot after its release: the payload stays. *)
Definition vacated (name : string) : Element Data :=
  {| data := {| field_1 := 0; field_3 := name |}; access := false; inUse := false |}.

(** [std::ostream& operator<< (std::ostream& st, const Data& data)]:
    [fmt::print(st, "s: {}  i: {}", data.field_3, data.field_1)] *)
Definition Data_streamed (d : Data) : string :=
  "s: " +:+ field_3 d +:+ "  i: " +:+ pretty (field_1 d).

(** * Facts *)

(** ** find_if *)
Section FindIf.
Context {A : Type} (p : A -> bool).
Implicit Types l : list A.

Lemma find_if_le l : find_if p l ≤ length l.
Proof. induction l as [|x l IH]; simpl; [lia|]. destruct (p x); lia. Qed.

Lemma find_if_found l :
  find_if p l < length l → ∃ x, l !! find_if p l = Some x ∧ p x = true.
Proof.
  induction l as [|x l IH]; simpl; [lia|].
  destruct (p x) eqn:Hx; [eauto|].
  intros H. apply IH. lia.
Qed.

Lemma find_if_before l j x :
  j < find_if p l → l !! j = Some x → p x = false.
Proof.
  revert j. induction l as [|y l IH]; intros j; simpl; [lia|].
  destruct (p y) eqn:Hy; [lia|].
  destruct j as [|j]; simpl.
  - intros _ [= <-]. done.
  - intros H. apply IH. lia.
Qed.

Lemma find_if_first l i x :
  l !! i = Some x → p x = true →
  (∀ j y, j < i → l !! j = Some y → p y = false) →
  find_if p l = i.
Proof.
  intros Hi Hx Hlow.
  assert (Hlen : i < length l) by (eapply lookup_lt_Some; done).
  destruct (Nat.lt_trichotomy (find_if p l) i) as [Hlt|[Heq|Hgt]]; [|done|].
  - destruct (find_if_found l) as (y & Hy & Hpy); [lia|].
    rewrite (Hlow _ _ Hlt Hy) in Hpy. done.
  - rewrite (find_if_before l i x Hgt Hi) in Hx. done.
Qed.

Lemma find_if_none l :
  (∀ j y, l !! j = Some y → p y = false) → find_if p l = length l.
Proof.
  intros Hall. pose proof (find_if_le l) as Hle.
  destruct (decide (find_if p l = length l)) as [|Hne]; [done|].
  destruct (find_if_found l) as (y & Hy & Hpy); [lia|].
  rewrite (Hall _ _ Hy) in Hpy. done.
Qed.

Lemma find_if_from_ge start l : start < find_if_from p (start + 1) l.
Proof. unfold find_if_from. lia. Qed.
End FindIf.

(** ** Relations every outcome of a computation keeps *)
Section Respects.
Context {S : Type} (R : S -> S -> Prop) `{!PreOrder R}.

Lemma respects_ret {A} (a : A) : respects R (ret a).
Proof. intros s. simpl. reflexivity. Qed.

Lemma respects_throw {A} e : respects R (@throw S A e).
Proof. intros s. simpl. reflexivity. Qed.

Lemma respects_bind {A B} (m : M S A) (k : A -> M S B) :
  respects R m → (∀ a, respects R (k a)) → respects R (bind m k).
Proof.
  intros Hm Hk s. unfold bind. specialize (Hm s).
  destruct (m s) as [a s'| | | |]; try done.
  specialize (Hk a s'). destruct (k a s'); try done; by etrans.
Qed.

Lemma respects_finally {A} (m : M S A) (cleanup : S -> S) :
  respects R m → (∀ s, R s (cleanup s)) → respects R (finally m cleanup).
Proof.
  intros Hm Hc s. unfold finally. specialize (Hm s).
  destruct (m s) as [a s'|e s'| | |]; try done; by etrans.
Qed.

Lemma respects_do_while {A} fuel (body : M S (option A)) :
  respects R body → respects R (do_while fuel body).
Proof.
  intros Hb. induction fuel as [|fuel IH]; simpl; [done|].
  apply respects_bind; [done|]. intros [a|]; [apply respects_ret|done].
Qed.

End Respects.

(** ** The member functions, call by call *)
Section VaultFacts.
Context {ElementData : Type}.
Implicit Types (st : Storage ElementData) (e : Element ElementData).
Implicit Types (v : ElementView) (i j idx : nat).

Lemma alter_insert (f : Element ElementData → Element ElementData) st i e :
  alter f i (<[i := e]> st) = <[i := f e]> st.
Proof.
  apply list_eq. intros j. destruct (decide (i = j)) as [<-|Hne].
  - rewrite list_lookup_alter_eq.
    destruct (decide (i < length st)) as [Hlt|Hge].
    + rewrite !list_lookup_insert_eq by done. done.
    + rewrite !list_insert_ge by lia.
      rewrite lookup_ge_None_2 by lia. done.
  - rewrite list_lookup_alter_ne by done.
    rewrite !list_lookup_insert_ne by done. done.
Qed.

Lemma through_Some {A} i e (f : nat → Element ElementData → M (Storage ElementData) A) st :
  st !! i = Some e → through (Some i) f st = f i e st.
Proof. intros H. unfold through. rewrite H. done. Qed.

Lemma through_dangling {A} i (f : nat → Element ElementData → M (Storage ElementData) A) st :
  st !! i = None → through (Some i) f st = Undefined.
Proof. intros H. unfold through. rewrite H. done. Qed.

Lemma mutex_lock_free st i e :
  st !! i = Some e → access e = false →
  mutex_lock i st = Returns () (<[i := set_access true e]> st).
Proof.
  intros Hi Ha. unfold mutex_lock. rewrite (through_Some i e) by done.
  rewrite Ha. done.
Qed.

Lemma mutex_lock_held st i e :
  st !! i = Some e → access e = true → mutex_lock i st = Deadlock.
Proof.
  intros Hi Ha. unfold mutex_lock. rewrite (through_Some i e) by done.
  rewrite Ha. done.
Qed.

Lemma ElementView_ctor_free st i e :
  st !! i = Some e → access e = false →
  ElementView_ctor i st
  = Returns {| lock := Some i; ref := Some i |} (<[i := set_access true e]> st).
Proof.
  intros Hi Ha. unfold ElementView_ctor, bind.
  rewrite (mutex_lock_free st i e) by done. done.
Qed.

Lemma ElementView_ctor_held st i e :
  st !! i = Some e → access e = true → ElementView_ctor i st = Deadlock.
Proof.
  intros Hi Ha. unfold ElementView_ctor, bind.
  rewrite (mutex_lock_held st i e) by done. done.
Qed.

(** Taking the mutex of a slot and releasing it again leaves the storage
    as it was. *)
Lemma unlock_lock st i e :
  st !! i = Some e → access e = false →
  mutex_unlock i (<[i := set_access true e]> st) = st.
Proof.
  intros Hi Ha. unfold mutex_unlock. rewrite alter_insert.
  apply list_insert_id. rewrite Hi. f_equal.
  destruct e; simpl in *; subst; done.
Qed.

(** *** allocate *)

(** What a call of [allocate] does, whatever the state. *)
Lemma allocate_unfold fuel st :
  allocate (S fuel) st =
  let i := find_if_not inUse st in
  match st !! i with
  | None => Returns (ElementView_default, false) st
  | Some e =>
      if access e then Deadlock
      else Returns ({| lock := Some i; ref := Some i |}, true)
                   (<[i := set_inUse true (set_access true e)]> st)
  end.
Proof.
  unfold allocate. simpl. unfold bind at 1. unfold allocate_round.
  set (i := find_if_not inUse st).
  destruct (decide (i = length st)) as [Heq|Hne].
  - rewrite lookup_ge_None_2 by lia. done.
  - assert (Hlt : i < length st).
    { pose proof (find_if_le (fun x => negb (inUse x)) st). unfold i, find_if_not in *. lia. }
    destruct (find_if_found (fun x => negb (inUse x)) st) as (e & He & Hfree);
      [done|]. fold (find_if_not inUse st) in He. fold i in He.
    rewrite He. apply negb_true_iff in Hfree.
    destruct (access e) eqn:Ha.
    + unfold bind. rewrite (ElementView_ctor_held st i e) by done. done.
    + unfold bind. rewrite (ElementView_ctor_free st i e) by done.
      unfold compare_exchange_strong.
      rewrite (through_Some i (set_access true e))
        by (by apply list_lookup_insert_eq).
      simpl. rewrite Hfree. simpl.
      rewrite list_insert_insert_eq. done.
Qed.

(** *** deallocate (idx) *)
Lemma deallocate_unfold idx st :
  deallocate idx st =
  match st !! idx with
  | None => Throws OutOfRange st
  | Some e =>
      if access e then Deadlock
      else Returns (inUse e) (<[idx := set_inUse false e]> st)
  end.
Proof.
  unfold deallocate, bind at 1, array_at.
  destruct (decide (idx < length st)) as [Hlt|Hge].
  - destruct (lookup_lt_is_Some_2 st idx Hlt) as [e He]. rewrite He.
    unfold scoped_view, bind.
    destruct (access e) eqn:Ha.
    + rewrite (ElementView_ctor_held st idx e) by done. done.
    + rewrite (ElementView_ctor_free st idx e) by done.
      unfold finally, ElementView_dtor. cbn [ref lock].
      rewrite (through_Some idx (set_access true e))
        by (by apply list_lookup_insert_eq).
      unfold compare_exchange_strong.
      rewrite (through_Some idx (set_access true e))
        by (by apply list_lookup_insert_eq).
      simpl. destruct (inUse e) eqn:Hu; simpl.
      * rewrite list_insert_insert_eq. unfold mutex_unlock.
        rewrite alter_insert. do 2 f_equal.
        destruct e; simpl in *; subst; done.
      * rewrite (unlock_lock st idx e) by done.
        f_equal. symmetry. apply list_insert_id. rewrite He. f_equal.
        destruct e; simpl in *; subst; done.
  - rewrite lookup_ge_None_2 by lia. done.
Qed.

(** *** view (idx) *)
Lemma view_unfold idx st :
  view idx st =
  match st !! idx with
  | None => Throws OutOfRange st
  | Some e =>
      if access e then Deadlock
      else Returns {| lock := Some idx; ref := Some idx |}
                   (<[idx := set_access true e]> st)
  end.
Proof.
  unfold view, bind at 1, array_at.
  destruct (decide (idx < length st)) as [Hlt|Hge].
  - destruct (lookup_lt_is_Some_2 st idx Hlt) as [e He]. rewrite He.
    destruct (access e) eqn:Ha.
    + by apply (ElementView_ctor_held st idx e).
    + by apply (ElementView_ctor_free st idx e).
  - rewrite lookup_ge_None_2 by lia. done.
Qed.

(** *** Counting occupied slots *)
Lemma count_occupied_cons e st :
  count_occupied (e :: st) = Nat.b2n (inUse e) + count_occupied st.
Proof.
  unfold count_occupied. rewrite filter_cons.
  destruct (decide (inUse e = true)) as [->|Hne]; simpl; [done|].
  apply not_true_is_false in Hne. rewrite Hne. done.
Qed.

Lemma count_occupied_insert st i e e' :
  st !! i = Some e →
  count_occupied (<[i := e']> st) + Nat.b2n (inUse e)
  = count_occupied st + Nat.b2n (inUse e').
Proof.
  revert i. induction st as [|x st IH]; intros i Hi; [done|].
  destruct i as [|i]; simpl in *.
  - injection Hi as ->. rewrite !count_occupied_cons. lia.
  - rewrite !count_occupied_cons. specialize (IH i Hi). lia.
Qed.

Lemma count_occupied_fresh COUNT (d0 : ElementData) :
  count_occupied (fresh COUNT d0) = 0.
Proof.
  induction COUNT as [|n IH]; [done|].
  unfold fresh in *. simpl. rewrite count_occupied_cons, IH. done.
Qed.

(** *** No view alive *)
Lemma quiescent_lookup st i e : quiescent st → st !! i = Some e → access e = false.
Proof. intros Hq Hi. exact (proj1 (Forall_lookup _ _) Hq i e Hi). Qed.

Lemma quiescent_traversable st : quiescent st → traversable st.
Proof. intros Hq i e He _. by eapply quiescent_lookup. Qed.

Lemma quiescent_insert st i e :
  quiescent st → access e = false → quiescent (<[i := e]> st).
Proof. intros Hq He. by apply Forall_insert. Qed.

Lemma quiescent_fresh COUNT (d0 : ElementData) : quiescent (fresh COUNT d0).
Proof. apply Forall_replicate. done. Qed.

(** *** deallocate (pred) *)

Lemma deallocate_pred_visit_unfold spurious pred i st :
  deallocate_pred_visit spurious pred i st =
  match st !! i with
  | None => Undefined
  | Some e =>
      if access e then Deadlock
      else if released spurious pred st i
           then Returns (true, true) (<[i := set_inUse false e]> st)
           else Returns (inUse e, false) st
  end.
Proof.
  unfold deallocate_pred_visit, scoped_view, bind at 1.
  destruct (st !! i) as [e|] eqn:He.
  - destruct (access e) eqn:Ha.
    + rewrite (ElementView_ctor_held st i e) by done. done.
    + rewrite (ElementView_ctor_free st i e) by done.
      assert (Hl : <[i := set_access true e]> st !! i = Some (set_access true e)).
      { apply list_lookup_insert_eq. by eapply lookup_lt_Some. }
      unfold finally, bind, operator_bool, operator_call, ElementView_dtor.
      cbn [ref lock].
      rewrite (through_Some i (set_access true e)) by done.
      unfold released. rewrite He. unfold ret at 1. simpl.
      destruct (inUse e) eqn:Hu; simpl.
      * rewrite Hl. simpl. rewrite Hu. unfold ret at 1.
        destruct (pred (data e)) eqn:Hp; simpl.
        -- unfold compare_exchange_weak.
           destruct (spurious i) eqn:Hs; simpl.
           ++ rewrite (unlock_lock st i e) by done. done.
           ++ unfold compare_exchange_strong.
              rewrite (through_Some i (set_access true e)) by done.
              simpl. rewrite Hu. simpl.
              rewrite list_insert_insert_eq. unfold mutex_unlock.
              rewrite alter_insert. do 2 f_equal.
              destruct e; simpl in *; subst; done.
        -- rewrite (unlock_lock st i e) by done. done.
      * rewrite (unlock_lock st i e) by done. done.
  - unfold ElementView_ctor, bind, mutex_lock.
    rewrite through_dangling by done. done.
Qed.

(** The slots of [idxs] at which the call does not end are passed over:
    [pred] is called on the occupied ones and the storage is left as it
    was. *)
Lemma deallocate_pred_for_pass spurious pred idxs rest st :
  quiescent st →
  (∀ i, i ∈ idxs → i < length st) →
  (∀ i, i ∈ idxs → released spurious pred st i = false) →
  deallocate_pred_for spurious pred (idxs ++ rest) st =
  match deallocate_pred_for spurious pred rest st with
  | Returns r st' =>
      Returns (r.1, filter (λ i, occupied st i = true) idxs ++ r.2) st'
  | o => o
  end.
Proof.
  intros Hq. induction idxs as [|i idxs IH]; intros Hin Hmiss.
  - simpl. destruct (deallocate_pred_for spurious pred rest st) as [[b l] st'| | | |];
      done.
  - simpl. unfold bind at 1. rewrite deallocate_pred_visit_unfold.
    destruct (lookup_lt_is_Some_2 st i) as [e He];
      [apply Hin; by left|].
    rewrite He, (quiescent_lookup st i e Hq He).
    rewrite (Hmiss i) by (by left). cbn [fst snd].
    unfold bind. rewrite IH; cycle 1.
    { intros j Hj. apply Hin. by right. }
    { intros j Hj. apply Hmiss. by right. }
    assert (Hocc : occupied st i = inUse e) by (unfold occupied; by rewrite He).
    rewrite filter_cons, Hocc.
    destruct (deallocate_pred_for spurious pred rest st) as [[b l] st'| | | |];
      try done.
    simpl. destruct (inUse e); done.
Qed.

Lemma deallocate_pred_for_release spurious pred i e rest st :
  st !! i = Some e → access e = false →
  released spurious pred st i = true →
  deallocate_pred_for spurious pred (i :: rest) st
  = Returns (true, [i]) (<[i := set_inUse false e]> st).
Proof.
  intros He Ha Hr. simpl. unfold bind at 1.
  rewrite deallocate_pred_visit_unfold, He, Ha, Hr. done.
Qed.

Lemma deallocate_pred_unfold spurious pred st :
  quiescent st →
  deallocate_pred spurious pred st =
  let i := find_if (released spurious pred st) (seq 0 (length st)) in
  match st !! i with
  | None => Returns (false, occupied_indices st) st
  | Some e =>
      Returns (true, filter (λ j, occupied st j = true) (seq 0 (S i)))
              (<[i := set_inUse false e]> st)
  end.
Proof.
  intros Hq. unfold deallocate_pred. cbv zeta.
  set (i := find_if (released spurious pred st) (seq 0 (length st))).
  pose proof (find_if_le (released spurious pred st) (seq 0 (length st))) as Hle.
  fold i in Hle. rewrite length_seq in Hle.
  assert (Hbefore : ∀ j, j < i → released spurious pred st j = false).
  { intros j Hj.
    apply (find_if_before (released spurious pred st) (seq 0 (length st)) j j);
      [done|]. apply lookup_seq_lt. lia. }
  destruct (decide (i < length st)) as [Hlt|Hge].
  - destruct (lookup_lt_is_Some_2 st i Hlt) as [e He]. rewrite He.
    destruct (find_if_found (released spurious pred st) (seq 0 (length st)))
      as (x & Hx & Hrel); [by rewrite length_seq|].
    fold i in Hx. rewrite lookup_seq_lt in Hx by done. injection Hx as <-.
    simpl in Hrel.
    replace (length st) with (i + S (length st - S i)) at 1 by lia.
    rewrite seq_app.
    change (seq (0 + i) (S (length st - S i)))
      with (i :: seq (S i) (length st - S i)).
    rewrite deallocate_pred_for_pass; [|done|..].
    + rewrite (deallocate_pred_for_release spurious pred i e);
        [|done|by eapply quiescent_lookup|done].
      cbn [fst snd]. do 2 f_equal.
      rewrite seq_S, filter_app. f_equal. cbn [Nat.add].
      rewrite filter_cons, filter_nil.
      unfold released in Hrel. rewrite He in Hrel.
      assert (Hocc : occupied st i = true).
      { unfold occupied. rewrite He. by destruct (inUse e). }
      by rewrite decide_True.
    + intros j Hj. apply elem_of_seq in Hj. lia.
    + intros j Hj. apply elem_of_seq in Hj. apply Hbefore. lia.
  - rewrite lookup_ge_None_2 by lia.
    rewrite <- (app_nil_r (seq 0 (length st))).
    rewrite deallocate_pred_for_pass; [|done|..].
    + simpl. by rewrite app_nil_r.
    + intros j Hj. apply elem_of_seq in Hj. lia.
    + intros j Hj. apply elem_of_seq in Hj. apply Hbefore. lia.
Qed.

(** *** Traversal *)

Lemma find_if_from_le (p : Element ElementData → bool) a st :
  a ≤ length st → find_if_from p a st ≤ length st.
Proof.
  intros Ha. unfold find_if_from.
  pose proof (find_if_le p (drop a st)) as H. rewrite length_drop in H. lia.
Qed.

Lemma find_if_from_occupied a st :
  find_if_from inUse a st < length st →
  occupied st (find_if_from inUse a st) = true.
Proof.
  unfold find_if_from. intros Hlt.
  destruct (find_if_found inUse (drop a st)) as (e & He & Hu).
  { rewrite length_drop. lia. }
  rewrite lookup_drop in He. unfold occupied. rewrite He. done.
Qed.

Lemma find_if_from_free a st j :
  a ≤ j < find_if_from inUse a st → occupied st j = false.
Proof.
  unfold find_if_from. intros [Hlo Hhi]. unfold occupied.
  destruct (st !! j) as [e|] eqn:He; [|done].
  apply (find_if_before inUse (drop a st) (j - a)); [lia|].
  rewrite lookup_drop. replace (a + (j - a)) with j by lia. done.
Qed.

Lemma omap_seen_free st a k :
  (∀ j, a ≤ j < a + k → occupied st j = false) →
  omap (seen_at st) (seq a k) = [].
Proof.
  revert a. induction k as [|k IH]; intros a Hfree; [done|].
  simpl. assert (Ha : seen_at st a = None).
  { specialize (Hfree a ltac:(lia)). unfold occupied, seen_at in *.
    destruct (st !! a) as [e|]; [|done]. rewrite Hfree. done. }
  rewrite Ha. apply IH. intros j Hj. apply Hfree. lia.
Qed.

(** The slots between two positions of the iterator are free. *)
Lemma omap_seen_jump st a :
  a ≤ length st →
  omap (seen_at st) (seq a (length st - a))
  = omap (seen_at st)
      (seq (find_if_from inUse a st) (length st - find_if_from inUse a st)).
Proof.
  intros Ha. pose proof (find_if_from_le inUse a st Ha) as Hle.
  set (a' := find_if_from inUse a st) in *.
  assert (Hge : a ≤ a') by (unfold a', find_if_from; lia).
  replace (length st - a) with ((a' - a) + (length st - a')) by lia.
  rewrite seq_app, omap_app, omap_seen_free.
  - simpl. do 2 f_equal. lia.
  - intros j Hj. apply (find_if_from_free a). fold a'. lia.
Qed.

Lemma visit_star st i e :
  st !! i = Some e → access e = false → inUse e = true →
  (v <- operator_star {| iter := i |} ;; finally (visit v) (ElementView_dtor v)) st
  = Returns (Some i, data e) st.
Proof.
  intros He Ha Hu. unfold bind at 1, operator_star. cbn [iter].
  rewrite (ElementView_ctor_free st i e) by done.
  unfold finally, visit, bind, operator_call, ElementView_dtor. cbn [ref lock].
  rewrite (through_Some i (set_access true e)).
  - simpl. rewrite Hu. simpl. rewrite (unlock_lock st i e) by done. done.
  - apply list_lookup_insert_eq. by eapply lookup_lt_Some.
Qed.

Lemma traverse_from_unfold fuel st a :
  traversable st → a ≤ length st →
  (a < length st → occupied st a = true) →
  length st - a < fuel →
  traverse_from fuel visit {| iter := a |} st
  = Returns (omap (seen_at st) (seq a (length st - a))) st.
Proof.
  intros Hq. revert a. induction fuel as [|fuel IH]; intros a Hle Hocc Hfuel; [lia|].
  cbn [traverse_from]. unfold bind at 1, end_, operator_eq. cbn [iter].
  case_bool_decide as Hend.
  - subst a. rewrite Nat.sub_diag. done.
  - assert (Hlt : a < length st) by lia.
    destruct (lookup_lt_is_Some_2 st a Hlt) as [e He].
    assert (Hu : inUse e = true).
    { specialize (Hocc Hlt). unfold occupied in Hocc. by rewrite He in Hocc. }
    unfold bind at 1. rewrite (visit_star st a e); [|done|by eapply Hq|done].
    unfold bind at 1, operator_incr. cbn [iter].
    unfold bind at 1.
    pose proof (find_if_from_le inUse (a + 1) st ltac:(lia)) as Hle'.
    pose proof (find_if_from_ge inUse a st) as Hge'.
    rewrite IH; [|done|apply find_if_from_occupied|lia].
    unfold ret. f_equal.
    replace (length st - a) with (S (length st - (a + 1))) by lia.
    assert (Hs : seen_at st a = Some (Some a, data e)).
    { unfold seen_at. by rewrite He, Hu. }
    cbn [seq omap list_omap]. rewrite Hs.
    f_equal. replace (S a) with (a + 1) by lia.
    symmetry. apply omap_seen_jump. lia.
Qed.

Lemma traverse_unfold fuel st :
  traversable st → length st < fuel →
  traverse fuel visit st = Returns (omap (seen_at st) (seq 0 (length st))) st.
Proof.
  intros Hq Hfuel. unfold traverse, bind, begin.
  change (find_if inUse st) with (find_if_from inUse 0 st).
  pose proof (find_if_from_le inUse 0 st ltac:(lia)) as Hle.
  rewrite traverse_from_unfold; [|done|done|apply find_if_from_occupied|lia].
  f_equal. rewrite <- omap_seen_jump by lia. by rewrite Nat.sub_0_r.
Qed.

Lemma omap_seen_indices st (l : list nat) :
  (omap (seen_at st) l).*1 = Some <$> filter (λ i, occupied st i = true) l.
Proof.
  induction l as [|i l IH]; [done|].
  cbn [omap list_omap]. rewrite filter_cons.
  destruct (seen_at st i) as [[r d]|] eqn:Hs; case_decide as Hocc;
    unfold seen_at, occupied in Hs, Hocc;
    destruct (st !! i) as [e|]; try destruct (inUse e); try done.
  injection Hs as <- <-. rewrite !fmap_cons. f_equal. exact IH.
Qed.

Lemma omap_seen_payload st (l : list nat) k r d :
  omap (seen_at st) l !! k = Some (r, d) →
  ∃ i e, r = Some i ∧ i ∈ l ∧ st !! i = Some e ∧ inUse e = true ∧ data e = d.
Proof.
  intros Hk. apply list_elem_of_lookup_2 in Hk.
  apply list_elem_of_omap in Hk as (i & Hi & Hs).
  unfold seen_at in Hs. destruct (st !! i) as [e|] eqn:He; [|done].
  destruct (inUse e) eqn:Hu; [|done]. injection Hs as <- <-.
  exists i, e. done.
Qed.

(** *** Statements *)

Lemma find_if_not_free st e :
  st !! find_if_not inUse st = Some e → inUse e = false.
Proof.
  intros He. unfold find_if_not in *.
  destruct (find_if_found (λ x, negb (inUse x)) st) as (e' & He' & Hfree).
  { by eapply lookup_lt_Some. }
  rewrite He in He'. injection He' as <-. by apply negb_true_iff.
Qed.

Lemma find_if_released spurious pred st e :
  let i := find_if (released spurious pred st) (seq 0 (length st)) in
  st !! i = Some e →
  inUse e = true ∧ pred (data e) = true ∧ spurious i = false.
Proof.
  intros i He. pose proof (lookup_lt_Some _ _ _ He) as Hlt.
  destruct (find_if_found (released spurious pred st) (seq 0 (length st)))
    as (x & Hx & Hrel); [by rewrite length_seq|].
  fold i in Hx, Hrel. rewrite lookup_seq_lt in Hx by done. injection Hx as <-.
  cbn [Nat.add] in Hrel. unfold released in Hrel. rewrite He in Hrel.
  destruct (inUse e), (pred (data e)), (spurious i); done.
Qed.

Lemma unlock_claimed st i e :
  access e = false →
  mutex_unlock i (<[i := set_inUse true (set_access true e)]> st)
  = <[i := set_inUse true e]> st.
Proof.
  intros Ha. unfold mutex_unlock. rewrite alter_insert. f_equal.
  destruct e; simpl in *; subst; done.
Qed.

Lemma statement_view_unfold idx st :
  statement_view idx st =
  match st !! idx with
  | None => Throws OutOfRange st
  | Some e =>
      if access e then Deadlock
      else Returns (Viewed (Some idx) (if inUse e then Some (data e) else None)) st
  end.
Proof.
  unfold statement_view, bind at 1. rewrite view_unfold.
  destruct (st !! idx) as [e|] eqn:He; [|done].
  destruct (access e) eqn:Ha; [done|].
  assert (Hl : <[idx := set_access true e]> st !! idx = Some (set_access true e)).
  { apply list_lookup_insert_eq. by eapply lookup_lt_Some. }
  unfold finally, read_view, bind, operator_bool, operator_call, ElementView_dtor.
  cbn [ref lock]. rewrite (through_Some idx (set_access true e)) by done.
  unfold ret at 1. cbn [inUse set_access].
  destruct (inUse e) eqn:Hu.
  - rewrite (through_Some idx (set_access true e)) by done.
    cbn [inUse set_access data]. rewrite Hu. unfold ret.
    by rewrite (unlock_lock st idx e).
  - unfold ret. by rewrite (unlock_lock st idx e).
Qed.

Lemma statement_write_unfold idx d st :
  statement_write idx d st =
  match st !! idx with
  | None => Throws OutOfRange st
  | Some e =>
      if access e then Deadlock
      else Returns (Written (Some idx) (inUse e))
                   (if inUse e then <[idx := set_data d e]> st else st)
  end.
Proof.
  unfold statement_write, bind at 1. rewrite view_unfold.
  destruct (st !! idx) as [e|] eqn:He; [|done].
  destruct (access e) eqn:Ha; [done|].
  assert (Hl : <[idx := set_access true e]> st !! idx = Some (set_access true e)).
  { apply list_lookup_insert_eq. by eapply lookup_lt_Some. }
  unfold finally, write_view, bind, operator_bool, assign, ElementView_dtor.
  cbn [ref lock]. rewrite (through_Some idx (set_access true e)) by done.
  unfold ret at 1. cbn [inUse set_access].
  destruct (inUse e) eqn:Hu.
  - rewrite (through_Some idx (set_access true e)) by done.
    cbn [inUse set_access]. rewrite Hu. unfold ret.
    rewrite list_insert_insert_eq. unfold mutex_unlock. rewrite alter_insert.
    do 2 f_equal. destruct e; simpl in *; subst; done.
  - unfold ret. by rewrite (unlock_lock st idx e).
Qed.

(** A statement that starts with no mutex held does what [effect] says. *)
Lemma statement_effect fuel c st :
  quiescent st → length st < fuel →
  statement fuel c st = Returns (effect c st).1 (effect c st).2.
Proof.
  intros Hq Hfuel. destruct c as [|idx|pred spurious|idx|idx d| |];
    unfold statement, try_catch, effect.
  - destruct fuel as [|fuel]; [lia|]. unfold bind. rewrite allocate_unfold.
    cbv zeta. destruct (st !! find_if_not inUse st) as [e|] eqn:He; [|done].
    pose proof (quiescent_lookup st _ e Hq He) as Ha. rewrite Ha.
    cbn [fst snd ref ElementView_dtor lock]. by rewrite unlock_claimed.
  - unfold bind. rewrite deallocate_unfold.
    destruct (st !! idx) as [e|] eqn:He; [|done].
    by rewrite (quiescent_lookup st idx e Hq He).
  - unfold bind. rewrite deallocate_pred_unfold by done. cbv zeta.
    by destruct (st !! _).
  - rewrite statement_view_unfold.
    destruct (st !! idx) as [e|] eqn:He; [|done].
    by rewrite (quiescent_lookup st idx e Hq He).
  - rewrite statement_write_unfold.
    destruct (st !! idx) as [e|] eqn:He; [|done].
    by rewrite (quiescent_lookup st idx e Hq He).
  - unfold statement_iterate, bind.
    by rewrite traverse_unfold by (done || by apply quiescent_traversable).
  - done.
Qed.

Lemma effect_quiescent c st : quiescent st → quiescent (effect c st).2.
Proof.
  intros Hq. destruct c as [|idx|pred spurious|idx|idx d| |]; unfold effect;
    cbv zeta; try done.
  - destruct (st !! _) as [e|] eqn:He; [|done].
    apply quiescent_insert; [done|]. cbn. by eapply quiescent_lookup.
  - destruct (st !! _) as [e|] eqn:He; [|done].
    apply quiescent_insert; [done|]. cbn. by eapply quiescent_lookup.
  - destruct (st !! _) as [e|] eqn:He; [|done].
    apply quiescent_insert; [done|]. cbn. by eapply quiescent_lookup.
  - by destruct (st !! _).
  - destruct (st !! _) as [e|] eqn:He; [|done]. cbn [snd].
    destruct (inUse e); [|done].
    apply quiescent_insert; [done|]. cbn. by eapply quiescent_lookup.
Qed.

Lemma effect_length c st : length (effect c st).2 = length st.
Proof.
  destruct c as [|idx|pred spurious|idx|idx d| |]; unfold effect; cbv zeta;
    try done; destruct (st !! _) as [e|]; try done; cbn [snd];
    try destruct (inUse e); try done; apply length_insert.
Qed.

Lemma effect_count c st :
  count_occupied (effect c st).2 + Nat.b2n (is_deallocation (effect c st).1)
  = count_occupied st + Nat.b2n (is_allocation (effect c st).1).
Proof.
  destruct c as [|idx|pred spurious|idx|idx d| |]; unfold effect; cbv zeta;
    try done.
  - destruct (st !! _) as [e|] eqn:He; [|done].
    cbn [fst snd is_allocation is_deallocation Nat.b2n].
    pose proof (count_occupied_insert st _ e (set_inUse true e) He) as Hc.
    rewrite (find_if_not_free st e He) in Hc. simpl in Hc. lia.
  - destruct (st !! _) as [e|] eqn:He; [|done]. cbn [fst snd].
    pose proof (count_occupied_insert st _ e (set_inUse false e) He) as Hc.
    destruct (inUse e); simpl in *; lia.
  - destruct (st !! _) as [e|] eqn:He; [|done]. cbn [fst snd].
    pose proof (count_occupied_insert st _ e (set_inUse false e) He) as Hc.
    destruct (find_if_released spurious pred st e He) as (Hu & _).
    rewrite Hu in Hc. simpl in *. lia.
  - by destruct (st !! _).
  - destruct (st !! _) as [e|] eqn:He; [|done]. cbn [fst snd].
    destruct (inUse e) eqn:Hu; [|done].
    pose proof (count_occupied_insert st _ e (set_data d e) He) as Hc.
    simpl in *. rewrite Hu in Hc. simpl in *. lia.
Qed.

Lemma run_effects fuel cs st :
  quiescent st → length st < fuel →
  run (statement fuel) cs st = Returns (effects cs st).1 (effects cs st).2.
Proof.
  revert st. induction cs as [|c cs IH]; intros st Hq Hfuel; [done|].
  cbn [run effects]. unfold bind at 1. rewrite statement_effect by done.
  unfold bind at 1. rewrite IH; [done|by apply effect_quiescent|].
  by rewrite effect_length.
Qed.

Lemma effects_quiescent cs st : quiescent st → quiescent (effects cs st).2.
Proof.
  revert st. induction cs as [|c cs IH]; intros st Hq; [done|].
  cbn [effects]. cbn [snd]. apply IH. by apply effect_quiescent.
Qed.

Lemma effects_length cs st : length (effects cs st).2 = length st.
Proof.
  revert st. induction cs as [|c cs IH]; intros st; [done|].
  cbn [effects]. cbn [snd]. by rewrite IH, effect_length.
Qed.

Lemma successful_allocations_cons (a : @answer ElementData) l :
  successful_allocations (a :: l)
  = Nat.b2n (is_allocation a) + successful_allocations l.
Proof.
  unfold successful_allocations. rewrite filter_cons.
  destruct (is_allocation a); by case_decide.
Qed.

Lemma successful_deallocations_cons (a : @answer ElementData) l :
  successful_deallocations (a :: l)
  = Nat.b2n (is_deallocation a) + successful_deallocations l.
Proof.
  unfold successful_deallocations. rewrite filter_cons.
  destruct (is_deallocation a); by case_decide.
Qed.

Lemma effects_count cs st :
  count_occupied (effects cs st).2 + successful_deallocations (effects cs st).1
  = count_occupied st + successful_allocations (effects cs st).1.
Proof.
  revert st. induction cs as [|c cs IH]; intros st; [done|].
  cbn [effects]. cbn [fst snd].
  rewrite successful_allocations_cons, successful_deallocations_cons.
  specialize (IH (effect c st).2). pose proof (effect_count c st). lia.
Qed.

(** *** The variant compiled when LOCK_FREE is 0 *)

Lemma on_storage_Returns {A} (m : M (Storage ElementData) A) st b a st' :
  m st = Returns a st' →
  on_storage m {| storage := st; Vault_access := b |}
  = Returns a {| storage := st'; Vault_access := b |}.
Proof. intros H. unfold on_storage. cbn [storage Vault_access]. by rewrite H. Qed.

Lemma on_storage_Throws {A} (m : M (Storage ElementData) A) st b x st' :
  m st = Throws x st' →
  on_storage m {| storage := st; Vault_access := b |}
  = Throws x {| storage := st'; Vault_access := b |}.
Proof. intros H. unfold on_storage. cbn [storage Vault_access]. by rewrite H. Qed.

Lemma scoped_lock_Returns {A} (m : M CoarseVault A) st a st' :
  m {| storage := st; Vault_access := true |}
  = Returns a {| storage := st'; Vault_access := true |} →
  scoped_lock m {| storage := st; Vault_access := false |}
  = Returns a {| storage := st'; Vault_access := false |}.
Proof.
  intros H. unfold scoped_lock, bind, Vault_lock, finally.
  cbn [storage Vault_access]. by rewrite H.
Qed.

Lemma scoped_lock_Throws {A} (m : M CoarseVault A) st x st' :
  m {| storage := st; Vault_access := true |}
  = Throws x {| storage := st'; Vault_access := true |} →
  scoped_lock m {| storage := st; Vault_access := false |}
  = Throws x {| storage := st'; Vault_access := false |}.
Proof.
  intros H. unfold scoped_lock, bind, Vault_lock, finally.
  cbn [storage Vault_access]. by rewrite H.
Qed.

Lemma coarse_allocate_unfold st :
  quiescent st →
  coarse_allocate {| storage := st; Vault_access := false |} =
  let i := find_if_not inUse st in
  match st !! i with
  | None =>
      Returns (ElementView_default, false) {| storage := st; Vault_access := false |}
  | Some e =>
      Returns ({| lock := Some i; ref := Some i |}, true)
        {| storage := <[i := set_inUse true (set_access true e)]> st;
           Vault_access := false |}
  end.
Proof.
  intros Hq. cbv zeta. unfold coarse_allocate.
  destruct (st !! find_if_not inUse st) as [e|] eqn:He.
  - apply scoped_lock_Returns, on_storage_Returns.
    pose proof (lookup_lt_Some _ _ _ He) as Hlt.
    rewrite decide_False by lia. unfold bind.
    rewrite (ElementView_ctor_free st _ e); [|done|by eapply quiescent_lookup].
    unfold store_inUse. rewrite (through_Some _ (set_access true e)).
    + by rewrite list_insert_insert_eq.
    + by apply list_lookup_insert_eq.
  - apply scoped_lock_Returns, on_storage_Returns.
    apply lookup_ge_None_1 in He.
    pose proof (find_if_le (λ x, negb (inUse x)) st) as Hle.
    unfold find_if_not in *. by rewrite decide_True by lia.
Qed.

Lemma coarse_deallocate_unfold idx st :
  quiescent st →
  coarse_deallocate idx {| storage := st; Vault_access := false |} =
  match st !! idx with
  | None => Throws OutOfRange {| storage := st; Vault_access := false |}
  | Some e =>
      Returns (inUse e)
        {| storage := <[idx := set_inUse false e]> st; Vault_access := false |}
  end.
Proof.
  intros Hq. unfold coarse_deallocate.
  destruct (st !! idx) as [e|] eqn:He.
  - apply scoped_lock_Returns, on_storage_Returns.
    pose proof (lookup_lt_Some _ _ _ He) as Hlt.
    pose proof (quiescent_lookup st idx e Hq He) as Ha.
    assert (Hl : <[idx := set_access true e]> st !! idx = Some (set_access true e))
      by (by apply list_lookup_insert_eq).
    unfold bind at 1, array_at. rewrite decide_True by done.
    unfold scoped_view, bind. rewrite (ElementView_ctor_free st idx e) by done.
    unfold finally, ElementView_dtor. cbn [ref lock].
    rewrite (through_Some idx (set_access true e)) by done.
    unfold exchange_inUse. rewrite (through_Some idx (set_access true e)) by done.
    cbn [inUse set_access]. rewrite list_insert_insert_eq.
    unfold mutex_unlock. rewrite alter_insert. do 2 f_equal.
    destruct e; simpl in *; subst; done.
  - apply scoped_lock_Throws, on_storage_Throws.
    apply lookup_ge_None_1 in He.
    unfold bind, array_at. by rewrite decide_False by lia.
Qed.

Lemma coarse_deallocate_pred_round_unfold pred st b :
  quiescent st →
  coarse_deallocate_pred_round pred {| storage := st; Vault_access := b |} =
  let i := find_if (λ e, inUse e && pred (data e)) st in
  match st !! i with
  | None => Returns (Some false) {| storage := st; Vault_access := b |}
  | Some e =>
      Returns (Some true)
        {| storage := <[i := set_inUse false e]> st; Vault_access := b |}
  end.
Proof.
  intros Hq. cbv zeta. unfold coarse_deallocate_pred_round, on_storage.
  cbn [storage Vault_access].
  set (i := find_if (λ e, inUse e && pred (data e)) st).
  pose proof (find_if_le (λ e, inUse e && pred (data e)) st) as Hle. fold i in Hle.
  destruct (st !! i) as [e|] eqn:He.
  - pose proof (lookup_lt_Some _ _ _ He) as Hlt.
    pose proof (quiescent_lookup st i e Hq He) as Ha.
    destruct (find_if_found (λ e, inUse e && pred (data e)) st) as (e' & He' & Hm);
      [done|]. fold i in He'. rewrite He in He'. injection He' as <-.
    apply andb_true_iff in Hm as [Hu Hp].
    assert (Hl : <[i := set_access true e]> st !! i = Some (set_access true e))
      by (by apply list_lookup_insert_eq).
    rewrite decide_False by lia.
    unfold bind. rewrite (mutex_lock_free st i e) by done.
    unfold finally. rewrite (through_Some i (set_access true e)) by done.
    cbn [data set_access]. rewrite Hp. cbn [negb].
    unfold exchange_inUse. rewrite (through_Some i (set_access true e)) by done.
    cbn [inUse set_access]. rewrite Hu, list_insert_insert_eq.
    unfold ret, mutex_unlock. rewrite alter_insert. do 3 f_equal.
    destruct e; simpl in *; subst; done.
  - apply lookup_ge_None_1 in He. by rewrite decide_True by lia.
Qed.

Lemma coarse_deallocate_pred_unfold fuel pred st :
  quiescent st →
  coarse_deallocate_pred (S fuel) pred {| storage := st; Vault_access := false |} =
  let i := find_if (λ e, inUse e && pred (data e)) st in
  match st !! i with
  | None => Returns false {| storage := st; Vault_access := false |}
  | Some e =>
      Returns true
        {| storage := <[i := set_inUse false e]> st; Vault_access := false |}
  end.
Proof.
  intros Hq. cbv zeta. unfold coarse_deallocate_pred. cbn [do_while].
  pose proof (coarse_deallocate_pred_round_unfold pred st true Hq) as Hround.
  cbv zeta in Hround.
  destruct (st !! find_if (λ e, inUse e && pred (data e)) st) as [e|];
    apply scoped_lock_Returns; unfold bind; by rewrite Hround.
Qed.

(** With no spurious failure, the slot the lock-free scan releases is the
    one [find_if] of the coarse variant stops at. *)
Lemma find_if_released_calm spurious pred st :
  (∀ i, spurious i = false) →
  find_if (released spurious pred st) (seq 0 (length st))
  = find_if (λ e, inUse e && pred (data e)) st.
Proof.
  intros Hcalm. set (q := λ e : Element ElementData, inUse e && pred (data e)).
  assert (Hrel : ∀ j y, st !! j = Some y → released spurious pred st j = q y).
  { intros j y Hj. unfold released, q. rewrite Hj, Hcalm. apply andb_true_r. }
  pose proof (find_if_le q st) as Hle.
  destruct (decide (find_if q st < length st)) as [Hlt|Hge].
  - destruct (find_if_found q st Hlt) as (e & He & Hq).
    apply (find_if_first _ _ (find_if q st) (find_if q st)).
    + by apply lookup_seq_lt.
    + by rewrite (Hrel _ e).
    + intros j y Hj Hy. apply lookup_seq in Hy as [-> _]. cbn [Nat.add].
      destruct (lookup_lt_is_Some_2 st j ltac:(lia)) as [x Hx].
      rewrite (Hrel _ x Hx). by eapply find_if_before.
  - replace (find_if q st) with (length (seq 0 (length st)))
      by (rewrite length_seq; lia).
    apply find_if_none. intros j y Hy. apply lookup_seq in Hy as [-> Hj].
    cbn [Nat.add]. destruct (lookup_lt_is_Some_2 st j Hj) as [x Hx].
    rewrite (Hrel _ x Hx). apply (find_if_before q st j); [lia|done].
Qed.

Lemma try_catch_Returns {S} (m : M S (@answer ElementData)) s a s' :
  m s = Returns a s' → try_catch m s = Returns a s'.
Proof. intros H. unfold try_catch. by rewrite H. Qed.

Lemma try_catch_Throws {S} (m : M S (@answer ElementData)) s x s' :
  m s = Throws x s' → try_catch m s = Returns (Caught x) s'.
Proof. intros H. unfold try_catch. by rewrite H. Qed.

(** The coarse variant does the same as [effect] says when no weak
    compare-and-exchange of the lock-free variant fails spuriously. *)
Lemma coarse_statement_effect fuel c st :
  quiescent st → length st < fuel → no_spurious_failure c →
  coarse_statement fuel c {| storage := st; Vault_access := false |}
  = Returns (effect c st).1 {| storage := (effect c st).2; Vault_access := false |}.
Proof.
  intros Hq Hfuel Hcalm. destruct c as [|idx|pred spurious|idx|idx d| |];
    unfold coarse_statement, effect.
  - apply try_catch_Returns. unfold bind. rewrite coarse_allocate_unfold by done.
    cbv zeta. destruct (st !! find_if_not inUse st) as [e|] eqn:He.
    + unfold on_storage. cbn [storage Vault_access fst snd ref ElementView_dtor lock].
      rewrite unlock_claimed; [done|by eapply quiescent_lookup].
    + done.
  - destruct (st !! idx) as [e|] eqn:He.
    + apply try_catch_Returns. unfold bind.
      by rewrite coarse_deallocate_unfold, He.
    + apply try_catch_Throws. unfold bind.
      by rewrite coarse_deallocate_unfold, He.
  - apply try_catch_Returns. destruct fuel as [|fuel]; [lia|]. unfold bind.
    rewrite coarse_deallocate_pred_unfold by done. cbv zeta.
    rewrite (find_if_released_calm spurious pred st Hcalm).
    by destruct (st !! _).
  - pose proof (statement_view_unfold idx st) as Hv.
    destruct (st !! idx) as [e|] eqn:He.
    + rewrite (quiescent_lookup st idx e Hq He) in Hv.
      apply try_catch_Returns. by apply on_storage_Returns.
    + apply try_catch_Throws. by apply on_storage_Throws.
  - pose proof (statement_write_unfold idx d st) as Hw.
    destruct (st !! idx) as [e|] eqn:He.
    + rewrite (quiescent_lookup st idx e Hq He) in Hw.
      apply try_catch_Returns. by apply on_storage_Returns.
    + apply try_catch_Throws. by apply on_storage_Throws.
  - apply try_catch_Returns. apply on_storage_Returns.
    unfold statement_iterate, bind.
    by rewrite traverse_unfold by (done || by apply quiescent_traversable).
  - apply try_catch_Returns. by apply on_storage_Returns.
Qed.

Lemma coarse_run_effects fuel cs st :
  quiescent st → length st < fuel → Forall no_spurious_failure cs →
  run (coarse_statement fuel) cs {| storage := st; Vault_access := false |}
  = Returns (effects cs st).1
      {| storage := (effects cs st).2; Vault_access := false |}.
Proof.
  revert st. induction cs as [|c cs IH]; intros st Hq Hfuel Hcalm; [done|].
  apply Forall_cons in Hcalm as [Hc Hcs].
  cbn [run effects]. unfold bind at 1. rewrite coarse_statement_effect by done.
  unfold bind at 1. rewrite IH; [done|by apply effect_quiescent| |done].
  by rewrite effect_length.
Qed.

(** *** Payloads are left alone *)

#[local] Abbreviation keeps_payloads := (respects (@same_payloads ElementData)).

#[local] Instance same_payloads_preorder : PreOrder (@same_payloads ElementData).
Proof.
  split.
  - intros st. reflexivity.
  - intros st1 st2 st3 H12 H23. unfold same_payloads in *. congruence.
Qed.

Lemma same_payloads_insert st i e e' :
  st !! i = Some e → data e' = data e → same_payloads st (<[i := e']> st).
Proof.
  intros He Hd. unfold same_payloads. rewrite list_fmap_insert.
  apply list_insert_id. by rewrite list_lookup_fmap, He, Hd.
Qed.

Lemma same_payloads_unlock st i : same_payloads st (mutex_unlock i st).
Proof.
  unfold same_payloads, mutex_unlock. apply list_eq. intros j.
  rewrite !list_lookup_fmap.
  destruct (decide (i = j)) as [<-|Hne].
  - rewrite list_lookup_alter_eq. by destruct (st !! i).
  - by rewrite list_lookup_alter_ne.
Qed.

Lemma same_payloads_dtor v st : same_payloads st (ElementView_dtor v st).
Proof.
  unfold ElementView_dtor. destruct (lock v); [apply same_payloads_unlock|reflexivity].
Qed.

Lemma respects_through {A} p (f : nat → Element ElementData → M (Storage ElementData) A) :
  (∀ i e st, st !! i = Some e →
     match f i e st with
     | Returns _ st' | Throws _ st' => same_payloads st st'
     | _ => True
     end) →
  keeps_payloads (through p f).
Proof.
  intros Hf st. unfold through. destruct p as [i|]; [|done].
  destruct (st !! i) as [e|] eqn:He; [|done]. by apply Hf.
Qed.

Lemma respects_mutex_lock i : keeps_payloads (mutex_lock i).
Proof.
  apply respects_through. intros j e st He. destruct (access e); [done|].
  by apply (same_payloads_insert st j e).
Qed.

Lemma respects_ElementView_ctor i : keeps_payloads (ElementView_ctor i).
Proof.
  apply respects_bind; [apply _|apply respects_mutex_lock|].
  intros _. apply respects_ret. apply _.
Qed.

Lemma respects_compare_exchange_strong i expected desired :
  keeps_payloads (compare_exchange_strong i expected desired).
Proof.
  apply respects_through. intros j e st He. case_bool_decide; [|reflexivity].
  by apply (same_payloads_insert st j e).
Qed.

Lemma respects_compare_exchange_weak spurious i expected desired :
  keeps_payloads (compare_exchange_weak spurious i expected desired).
Proof.
  unfold compare_exchange_weak. destruct spurious.
  - apply respects_ret. apply _.
  - apply respects_compare_exchange_strong.
Qed.

Lemma respects_scoped_view {A} i (body : ElementView → M (Storage ElementData) A) :
  (∀ v, keeps_payloads (body v)) →
  keeps_payloads (scoped_view i body).
Proof.
  intros Hb. apply respects_bind; [apply _|apply respects_ElementView_ctor|].
  intros v. apply respects_finally; [apply _|apply Hb|apply same_payloads_dtor].
Qed.

Lemma respects_operator_bool v : keeps_payloads (operator_bool v).
Proof.
  unfold operator_bool. destruct (ref v) as [i|].
  - apply respects_through. intros j e st _. reflexivity.
  - apply respects_ret. apply _.
Qed.

Lemma respects_operator_call v : keeps_payloads (operator_call v).
Proof.
  apply respects_through. intros j e st _. destruct (inUse e); reflexivity.
Qed.

Lemma respects_allocate fuel : keeps_payloads (allocate fuel).
Proof.
  apply respects_do_while; [apply _|]. intros st. unfold allocate_round.
  case_decide; [reflexivity|].
  apply (respects_bind same_payloads); [apply respects_ElementView_ctor|].
  intros v. apply respects_bind; [apply _|apply respects_compare_exchange_strong|].
  intros [|]; [apply respects_ret; apply _|].
  intros st'. apply same_payloads_dtor.
Qed.

Lemma respects_deallocate idx : keeps_payloads (deallocate idx).
Proof.
  apply respects_bind; [apply _| |].
  - intros st. unfold array_at. case_decide; reflexivity.
  - intros i. apply respects_scoped_view. intros v.
    apply respects_through. intros j e st _.
    apply respects_compare_exchange_strong.
Qed.

Lemma respects_deallocate_pred_visit spurious pred i :
  keeps_payloads (deallocate_pred_visit spurious pred i).
Proof.
  apply respects_scoped_view. intros v.
  apply respects_bind; [apply _|apply respects_operator_bool|].
  intros [|]; [|apply respects_ret; apply _].
  apply respects_bind; [apply _|apply respects_operator_call|].
  intros d. destruct (pred d); [|apply respects_ret; apply _].
  apply respects_bind; [apply _|apply respects_compare_exchange_weak|].
  intros b. apply respects_ret. apply _.
Qed.

Lemma respects_deallocate_pred_for spurious pred idxs :
  keeps_payloads (deallocate_pred_for spurious pred idxs).
Proof.
  induction idxs as [|i idxs IH]; cbn [deallocate_pred_for].
  - apply respects_ret. apply _.
  - apply respects_bind; [apply _|apply respects_deallocate_pred_visit|].
    intros r. destruct (r.2); [apply respects_ret; apply _|].
    apply respects_bind; [apply _|apply IH|].
    intros r'. apply respects_ret. apply _.
Qed.

Lemma respects_deallocate_pred spurious pred :
  keeps_payloads (deallocate_pred spurious pred).
Proof. intros st. apply respects_deallocate_pred_for. Qed.

Lemma occupied_indices_sorted st a n :
  StronglySorted lt (filter (λ i, occupied st i = true) (seq a n)).
Proof.
  revert a. induction n as [|n IH]; intros a; [constructor|].
  cbn [seq]. rewrite filter_cons. case_decide; [|apply IH].
  constructor; [apply IH|]. apply Forall_forall. intros j Hj.
  apply list_elem_of_filter in Hj as [_ Hj]. apply elem_of_seq in Hj. lia.
Qed.

Lemma failed_allocate_view fuel st v st' :
  allocate fuel st = Returns (v, false) st' → v = ElementView_default ∧ st' = st.
Proof.
  destruct fuel as [|fuel]; [done|]. rewrite allocate_unfold. cbv zeta.
  destruct (st !! _) as [e|]; [destruct (access e)|]; try done.
  by intros [= <- <-].
Qed.

End VaultFacts.

(** * Properties of the vault *)

(** ** allocate *)

(** C1. [allocate] on a storage with a free slot, called by a single thread
    that holds no view on the free slot of lowest index, answers success
    with a view on that slot: every slot below it is occupied, its occupancy
    goes from false to true, its payload and every other slot are left as
    they were, and its mutex is the one the returned view holds.  When every
    slot is occupied the answer is the default view with the flag false, and
    the storage is left as it was.  One round of the [do ... while] is
    enough; [fuel] is the number of further rounds allowed. *)
Theorem allocate_claims_lowest_free_slot {ElementData : Type}
    (st : Storage ElementData) (fuel : nat) :
  (∀ j, j < capacity st → occupied st j = false →
     ∃ i e, i ≤ j ∧ st !! i = Some e ∧ inUse e = false
       ∧ (∀ k, k < i → occupied st k = true)
       ∧ (access e = false →
          allocate (S fuel) st
          = Returns ({| lock := Some i; ref := Some i |}, true)
                    (<[i := set_inUse true (set_access true e)]> st)))
  ∧ ((∀ j, j < capacity st → occupied st j = true) →
     allocate (S fuel) st = Returns (ElementView_default, false) st).
Proof.
  rewrite allocate_unfold. cbv zeta. unfold capacity.
  set (i := find_if_not inUse st).
  assert (Hbelow : ∀ k, k < i → occupied st k = true).
  { intros k Hk. unfold occupied.
    destruct (st !! k) as [x|] eqn:Hx.
    - apply negb_false_iff.
      by apply (find_if_before (λ x, negb (inUse x)) st k x).
    - apply lookup_ge_None_1 in Hx.
      pose proof (find_if_le (λ x, negb (inUse x)) st). unfold i, find_if_not in *. lia. }
  split.
  - intros j Hj Hfree.
    assert (Hij : i ≤ j).
    { destruct (decide (i ≤ j)) as [|Hn]; [done|].
      rewrite Hbelow in Hfree by lia. done. }
    destruct (lookup_lt_is_Some_2 st i ltac:(lia)) as [e He].
    exists i, e. rewrite He.
    split; [done|]. split; [done|]. split; [exact (find_if_not_free st e He)|].
    split; [done|]. by intros ->.
  - intros Hfull. destruct (st !! i) as [e|] eqn:He; [|done].
    pose proof (find_if_not_free st e He) as Hfree.
    specialize (Hfull i (lookup_lt_Some st i e He)).
    unfold occupied in Hfull. rewrite He in Hfull. congruence.
Qed.

Lemma allocate_claims_lowest_free_slot_witness :
  allocate 1 [filled "1_1"; vacated "1_2"; vacated "1_3"]
  = Returns ({| lock := Some 1; ref := Some 1 |}, true)
      [filled "1_1";
       {| data := mkData 0 "1_2"; access := true; inUse := true |};
       vacated "1_3"]
  ∧ allocate 1 [filled "1_1"; filled "1_2"]
    = Returns (ElementView_default, false) [filled "1_1"; filled "1_2"].
Proof.
  split.
  - destruct (allocate_claims_lowest_free_slot
                [filled "1_1"; vacated "1_2"; vacated "1_3"] 0) as [H _].
    destruct (H 2 ltac:(simpl; lia) eq_refl)
      as (i & e & Hi & He & Hfree & Hlow & Hrun).
    destruct i as [|[|[|i]]]; simpl in He.
    + injection He as <-. discriminate Hfree.
    + injection He as <-. exact (Hrun eq_refl).
    + specialize (Hlow 1 ltac:(lia)). discriminate Hlow.
    + discriminate He.
  - apply (allocate_claims_lowest_free_slot [filled "1_1"; filled "1_2"] 0).
    intros [|[|j]] Hj; simpl in *; try reflexivity; lia.
Defined.

(** Capacity exhaustion: eight calls of [allocate] on a vault of capacity
    eight succeed on the slots 0 to 7, the ninth answers the default view
    and false. *)
Example capacity_exhaustion :
  run (statement 1) (replicate 9 Allocate) (fresh 8 (mkData 0 ""))
  = Returns
      (((λ i, Allocated (Some i) true) <$> seq 0 8) ++ [Allocated None false])
      (replicate 8 (filled "")).
Proof. reflexivity. Qed.

(** ** Occupancy count *)

(** C2. Start from a freshly constructed vault and let a single thread run
    any finite list of statements ([allocate], [deallocate (idx)],
    [deallocate (pred)] under any behaviour of the weak compare-and-exchange,
    and also views, writes, traversals and [capacity]).  The run returns,
    and the number of occupied slots it leaves is the number of allocations
    that answered success minus the number of deallocations that answered
    true.  The loops are given more rounds than the capacity. *)
Theorem occupied_count_is_allocations_minus_deallocations {ElementData : Type}
    (COUNT : nat) (d0 : ElementData) (fuel : nat) (cs : list call) :
  ∃ answers st',
    run (statement (S (COUNT + fuel))) cs (fresh COUNT d0) = Returns answers st'
    ∧ successful_deallocations answers ≤ successful_allocations answers
    ∧ count_occupied st'
      = successful_allocations answers - successful_deallocations answers.
Proof.
  pose proof (quiescent_fresh COUNT d0) as Hq.
  assert (Hlen : length (fresh COUNT d0) = COUNT) by apply length_replicate.
  exists (effects cs (fresh COUNT d0)).1, (effects cs (fresh COUNT d0)).2.
  rewrite run_effects; [|done|lia].
  pose proof (effects_count cs (fresh COUNT d0)) as Hc.
  rewrite count_occupied_fresh in Hc. split; [done|]. lia.
Qed.

(** ** deallocate (idx) *)

(** C3. [deallocate (i)] on an occupied slot [i], called by a single thread
    that holds no view on that slot, answers true and sets the occupancy of
    the slot to false, leaving the rest as it was; called again at once it
    answers false.  On a free slot it answers false, raises nothing and
    leaves the storage as it was. *)
Theorem deallocate_round_trip {ElementData : Type}
    (st : Storage ElementData) (i : nat) (e : Element ElementData) :
  st !! i = Some e → access e = false →
  (inUse e = true →
     deallocate i st = Returns true (<[i := set_inUse false e]> st)
     ∧ deallocate i (<[i := set_inUse false e]> st)
       = Returns false (<[i := set_inUse false e]> st))
  ∧ (inUse e = false → deallocate i st = Returns false st).
Proof.
  intros He Ha. pose proof (lookup_lt_Some st i e He) as Hlt.
  split; intros Hu.
  - split.
    + by rewrite deallocate_unfold, He, Ha, Hu.
    + rewrite deallocate_unfold, list_lookup_insert_eq by done.
      cbn [access inUse set_inUse]. by rewrite Ha, list_insert_insert_eq.
  - rewrite deallocate_unfold, He, Ha, Hu. f_equal.
    apply list_insert_id. rewrite He. f_equal. destruct e; simpl in *; by subst.
Qed.

Lemma deallocate_round_trip_witness :
  deallocate 1 [filled "1_1"; filled "1_2"]
  = Returns true [filled "1_1"; vacated "1_2"]
  ∧ deallocate 1 [filled "1_1"; vacated "1_2"]
    = Returns false [filled "1_1"; vacated "1_2"].
Proof.
  destruct (deallocate_round_trip [filled "1_1"; filled "1_2"] 1 (filled "1_2")
              eq_refl eq_refl) as [Hocc _].
  exact (Hocc eq_refl).
Defined.

(** ** Errors of the index-based calls *)

(** C6. [deallocate (idx)] and [view (idx)] throw the [std::out_of_range] of
    [std::array::at] when [idx] is at or beyond the capacity, and then leave
    the storage as it was; for an index below the capacity neither throws
    anything. *)
Theorem out_of_range_iff_index_beyond_capacity {ElementData : Type}
    (st : Storage ElementData) (idx : nat) :
  (capacity st ≤ idx →
     deallocate idx st = Throws OutOfRange st
     ∧ view idx st = Throws OutOfRange st)
  ∧ (idx < capacity st →
     ∀ x st', deallocate idx st ≠ Throws x st' ∧ view idx st ≠ Throws x st').
Proof.
  unfold capacity. rewrite deallocate_unfold, view_unfold. split.
  - intros Hge. by rewrite lookup_ge_None_2 by lia.
  - intros Hlt x st'. destruct (lookup_lt_is_Some_2 st idx Hlt) as [e ->].
    by destruct (access e).
Qed.

Lemma out_of_range_iff_index_beyond_capacity_witness :
  (deallocate 2 [filled "1_1"; vacated "1_2"]
   = Throws OutOfRange [filled "1_1"; vacated "1_2"]
   ∧ view 2 [filled "1_1"; vacated "1_2"]
     = Throws OutOfRange [filled "1_1"; vacated "1_2"])
  ∧ deallocate 1 [filled "1_1"; vacated "1_2"]
    ≠ Throws OutOfRange [filled "1_1"; vacated "1_2"].
Proof.
  split.
  - apply (out_of_range_iff_index_beyond_capacity [filled "1_1"; vacated "1_2"] 2).
    simpl. lia.
  - apply (out_of_range_iff_index_beyond_capacity [filled "1_1"; vacated "1_2"] 1).
    simpl. lia.
Defined.

(** ** ElementView *)

(** C10. [operator bool] never faults: on a view bound to no slot, such as
    the one a failed [allocate] returns, it answers false; on a view bound
    to a slot it answers the occupancy of that slot, true when occupied and
    false when free. *)
Theorem liveness_check_never_faults {ElementData : Type}
    (st : Storage ElementData) (v : ElementView) :
  (ref v = None → operator_bool v st = Returns false st)
  ∧ (∀ i e, ref v = Some i → st !! i = Some e →
       operator_bool v st = Returns (inUse e) st)
  ∧ (∀ fuel v' st', allocate fuel st = Returns (v', false) st' →
       ref v' = None ∧ operator_bool v' st' = Returns false st').
Proof.
  repeat split.
  - intros Hv. unfold operator_bool. by rewrite Hv.
  - intros i e Hv He. unfold operator_bool. rewrite Hv.
    by rewrite (through_Some i e).
  - by apply failed_allocate_view in H as [-> _].
  - by apply failed_allocate_view in H as [-> _].
Qed.

Lemma liveness_check_never_faults_witness :
  operator_bool ElementView_default [filled "1_1"] = Returns false [filled "1_1"]
  ∧ operator_bool {| lock := Some 0; ref := Some 0 |} [filled "1_1"]
    = Returns true [filled "1_1"]
  ∧ operator_bool {| lock := Some 0; ref := Some 0 |} [vacated "1_1"]
    = Returns false [vacated "1_1"].
Proof.
  split; [|split].
  - by apply (liveness_check_never_faults [filled "1_1"] ElementView_default).
  - destruct (liveness_check_never_faults [filled "1_1"]
                {| lock := Some 0; ref := Some 0 |}) as (_ & Hbound & _).
    exact (Hbound 0 (filled "1_1") eq_refl eq_refl).
  - destruct (liveness_check_never_faults [vacated "1_1"]
                {| lock := Some 0; ref := Some 0 |}) as (_ & Hbound & _).
    exact (Hbound 0 (vacated "1_1") eq_refl eq_refl).
Defined.

(** C5. [operator()] on the default view, the one a failed [allocate]
    returns, evaluates [ref->inUse] with [ref] null: it throws nothing, the
    behaviour is undefined.  ([operator bool] tests [ref] first; [operator()]
    does not.) *)
Theorem dereferencing_the_empty_view_is_undefined :
  (∀ st : Storage Data, operator_call ElementView_default st = Undefined)
  ∧ ∃ v st',
      allocate 1 [filled "1_1"; filled "1_2"] = Returns (v, false) st'
      ∧ operator_bool v st' = Returns false st'
      ∧ operator_call v st' = Undefined.
Proof.
  split; [done|].
  exists ElementView_default, [filled "1_1"; filled "1_2"]. done.
Qed.



(** ** deallocate (pred) *)

(** C4. Two occupied slots, the second with a payload satisfying the
    predicate, no view alive, no other thread, and a weak
    compare-and-exchange that fails spuriously: [deallocate (pred)] calls
    the predicate on both slots, frees nothing and answers false. *)
Theorem deallocate_pred_misses_match_on_spurious_failure :
  prefix_pred (data (filled "2_1")) = true
  ∧ deallocate_pred (λ _, true) prefix_pred [filled "1_1"; filled "2_1"]
    = Returns (false, [0; 1]) [filled "1_1"; filled "2_1"].
Proof. split; reflexivity. Qed.

(** X1. When the weak compare-and-exchange does not fail spuriously, a call
    made by a single thread while no view is alive calls the predicate on
    the occupied slots only, in ascending order, up to the first occupied
    slot whose payload satisfies it, frees that slot and answers true; when
    no occupied slot satisfies it, the predicate is called on every occupied
    slot, the answer is false and the storage is left as it was. *)
Theorem deallocate_pred_releases_lowest_match {ElementData : Type}
    (st : Storage ElementData) (pred : ElementData → bool)
    (spurious : nat → bool) :
  quiescent st → (∀ i, spurious i = false) →
  (∀ i e, st !! i = Some e → inUse e = true → pred (data e) = true →
     (∀ j e', j < i → st !! j = Some e' → inUse e' && pred (data e') = false) →
     deallocate_pred spurious pred st
     = Returns (true, filter (λ j, occupied st j = true) (seq 0 (S i)))
               (<[i := set_inUse false e]> st))
  ∧ ((∀ j e', st !! j = Some e' → inUse e' && pred (data e') = false) →
     deallocate_pred spurious pred st = Returns (false, occupied_indices st) st).
Proof.
  intros Hq Hcalm. rewrite deallocate_pred_unfold by done. cbv zeta.
  rewrite (find_if_released_calm spurious pred st Hcalm). split.
  - intros i e He Hu Hp Hlow.
    rewrite (find_if_first (λ e, inUse e && pred (data e)) st i e); [|done|..].
    + by rewrite He.
    + by rewrite Hu, Hp.
    + done.
  - intros Hnone. rewrite find_if_none by done.
    by rewrite lookup_ge_None_2 by lia.
Qed.

Lemma deallocate_pred_releases_lowest_match_witness :
  deallocate_pred (λ _, false) prefix_pred
    [filled "1_1"; vacated "2_1"; filled "2_2"; filled "2_3"]
  = Returns (true, [0; 2])
      [filled "1_1"; vacated "2_1"; vacated "2_2"; filled "2_3"]
  ∧ deallocate_pred (λ _, false) prefix_pred [filled "1_1"; vacated "2_1"]
    = Returns (false, [0]) [filled "1_1"; vacated "2_1"].
Proof.
  split.
  - destruct (deallocate_pred_releases_lowest_match
                [filled "1_1"; vacated "2_1"; filled "2_2"; filled "2_3"]
                prefix_pred (λ _, false)
                ltac:(repeat constructor) (λ _, eq_refl)) as [Hhit _].
    apply (Hhit 2 (filled "2_2") eq_refl eq_refl eq_refl).
    intros [|[|j]] e' Hj He'; simpl in He'; try lia;
      injection He' as <-; reflexivity.
  - destruct (deallocate_pred_releases_lowest_match
                [filled "1_1"; vacated "2_1"]
                prefix_pred (λ _, false)
                ltac:(repeat constructor) (λ _, eq_refl)) as [_ Hmiss].
    apply Hmiss.
    intros [|[|j]] e' He'; simpl in He'; try discriminate;
      injection He' as <-; reflexivity.
Defined.

(** ** Traversal *)

(** C7. With nothing else running and no view alive on an occupied slot,
    the loop from [begin( )] to [end( )] returns, leaves the storage as it
    was, and yields one view per occupied slot and none for a free slot, in
    ascending order of index, each occupied slot once; the view yielded for
    a slot dereferences to the payload that slot holds, which after a write
    through a view is the value written.  The loop is given more rounds
    than the capacity. *)
Theorem traversal_yields_occupied_slots {ElementData : Type}
    (st : Storage ElementData) (fuel : nat) :
  traversable st →
  (∃ seen,
     traverse (S (capacity st + fuel)) visit st = Returns seen st
     ∧ seen.*1 = Some <$> occupied_indices st
     ∧ ∀ k r d, seen !! k = Some (r, d) →
         ∃ i e, r = Some i ∧ st !! i = Some e ∧ inUse e = true ∧ data e = d)
  ∧ StronglySorted lt (occupied_indices st)
  ∧ (∀ i, i ∈ occupied_indices st ↔ i < capacity st ∧ occupied st i = true)
  ∧ (∀ idx d st1,
       statement_write idx d st = Returns (Written (Some idx) true) st1 →
       ∃ seen1,
         traverse (S (capacity st + fuel)) visit st1 = Returns seen1 st1
         ∧ (Some idx, d) ∈ seen1).
Proof.
  intros Hfree. unfold capacity. split; [|split; [|split]].
  - exists (omap (seen_at st) (seq 0 (length st))).
    rewrite traverse_unfold by (done || lia). split; [done|]. split.
    + apply omap_seen_indices.
    + intros k r d Hk.
      destruct (omap_seen_payload st _ k r d Hk) as (i & e & -> & _ & He & Hu & Hd).
      by exists i, e.
  - apply occupied_indices_sorted.
  - intros i. unfold occupied_indices.
    rewrite list_elem_of_filter, elem_of_seq. split.
    + intros [Hocc [_ Hlt]]. split; [lia|done].
    + intros [Hlt Hocc]. split; [done|lia].
  - intros idx d st1. rewrite statement_write_unfold.
    destruct (st !! idx) as [e|] eqn:He; [|done].
    destruct (access e) eqn:Ha; [done|].
    destruct (inUse e) eqn:Hu; [|done]. intros [= <-].
    pose proof (lookup_lt_Some st idx e He) as Hlt.
    exists (omap (seen_at (<[idx := set_data d e]> st))
              (seq 0 (length (<[idx := set_data d e]> st)))).
    split.
    + apply traverse_unfold; [|rewrite length_insert; lia].
      intros j x Hx Hux. destruct (decide (j = idx)) as [->|Hne].
      * rewrite list_lookup_insert_eq in Hx by done. by injection Hx as <-.
      * rewrite list_lookup_insert_ne in Hx by done. by eapply Hfree.
    + apply list_elem_of_omap. exists idx. split.
      * apply elem_of_seq. rewrite length_insert. lia.
      * unfold seen_at. rewrite list_lookup_insert_eq by done.
        cbn [inUse set_data data]. by rewrite Hu.
Qed.

Lemma traversal_yields_occupied_slots_witness :
  ∃ seen,
    traverse 5 visit [filled "1_1"; vacated "1_2"; filled "1_3"; vacated "1_4"]
    = Returns seen [filled "1_1"; vacated "1_2"; filled "1_3"; vacated "1_4"]
    ∧ seen.*1 = [Some 0; Some 2].
Proof.
  assert (Hfree : traversable
            [filled "1_1"; vacated "1_2"; filled "1_3"; vacated "1_4"]).
  { intros [|[|[|[|i]]]] e He; simpl in He; try discriminate;
      injection He as <-; reflexivity. }
  destruct (traversal_yields_occupied_slots
              [filled "1_1"; vacated "1_2"; filled "1_3"; vacated "1_4"] 0
              Hfree) as [(seen & Hrun & Hidx & _) _].
  exists seen. split; [exact Hrun|exact Hidx].
Defined.

(** ** Payloads *)

(** C9. [allocate], [deallocate (idx)] and [deallocate (pred)] leave the
    payload of every slot as it was, in every state and whatever they
    answer.  So the payload of a slot is still there after its release, and
    the view a later [allocate] returns on that slot dereferences to it. *)
Theorem payloads_survive_release_and_reclaim {ElementData : Type}
    (fuel idx : nat) (spurious : nat → bool) (pred : ElementData → bool) :
  respects same_payloads (allocate (ElementData := ElementData) fuel)
  ∧ respects same_payloads (deallocate (ElementData := ElementData) idx)
  ∧ respects same_payloads (deallocate_pred spurious pred)
  ∧ ∀ (st : Storage ElementData) i e,
      st !! i = Some e → access e = false → inUse e = true →
      (∀ k, k < i → occupied st k = true) →
      ∃ st1 st2 v,
        deallocate i st = Returns true st1
        ∧ allocate (S fuel) st1 = Returns (v, true) st2
        ∧ ref v = Some i
        ∧ operator_call v st2 = Returns (data e) st2.
Proof.
  split; [apply respects_allocate|].
  split; [apply respects_deallocate|].
  split; [apply respects_deallocate_pred|].
  intros st i e He Ha Hu Hlow.
  pose proof (lookup_lt_Some st i e He) as Hlt.
  set (st1 := <[i := set_inUse false e]> st).
  assert (H1 : st1 !! i = Some (set_inUse false e))
    by (by apply list_lookup_insert_eq).
  assert (Hfirst : find_if_not inUse st1 = i).
  { apply (find_if_first _ st1 i (set_inUse false e)); [done|done|].
    intros j y Hj Hy. unfold st1 in Hy.
    rewrite list_lookup_insert_ne in Hy by lia.
    specialize (Hlow j Hj). unfold occupied in Hlow. rewrite Hy in Hlow.
    by rewrite Hlow. }
  exists st1, (<[i := set_inUse true (set_access true (set_inUse false e))]> st1),
    {| lock := Some i; ref := Some i |}.
  split; [|split; [|split]].
  - by rewrite deallocate_unfold, He, Ha, Hu.
  - rewrite allocate_unfold. cbv zeta. rewrite Hfirst, H1.
    cbn [access set_inUse]. by rewrite Ha.
  - done.
  - unfold operator_call. cbn [ref].
    rewrite (through_Some i (set_inUse true (set_access true (set_inUse false e)))).
    + done.
    + apply list_lookup_insert_eq. unfold st1. by rewrite length_insert.
Qed.

Lemma payloads_survive_release_and_reclaim_witness :
  ∃ st1 st2 v,
    deallocate 1 [filled "1_1"; filled "1_2"; vacated "1_3"] = Returns true st1
    ∧ allocate 1 st1 = Returns (v, true) st2
    ∧ ref v = Some 1
    ∧ operator_call v st2 = Returns (mkData 0 "1_2") st2.
Proof.
  destruct (payloads_survive_release_and_reclaim (ElementData := Data)
              0 0 (λ _, false) prefix_pred) as (_ & _ & _ & Hreclaim).
  apply (Hreclaim [filled "1_1"; filled "1_2"; vacated "1_3"] 1 (filled "1_2")
           eq_refl eq_refl eq_refl).
  intros [|k] Hk; [reflexivity|lia].
Defined.

(** ** The two settings of LOCK_FREE *)

(** C8. The same statement on the same storage, one occupied slot
    satisfying the predicate: on an execution where the weak
    compare-and-exchange of the lock-free variant fails spuriously that
    variant answers false and frees nothing, while the coarse variant, which
    uses [std::exchange], answers true and frees the slot. *)
Theorem variants_differ_on_spurious_failure :
  statement 2 (DeallocatePred prefix_pred (λ _, true)) [filled "2_1"]
  = Returns (Deallocated false) [filled "2_1"]
  ∧ coarse_statement 2 (DeallocatePred prefix_pred (λ _, true))
      {| storage := [filled "2_1"]; Vault_access := false |}
    = Returns (Deallocated true)
        {| storage := [vacated "2_1"]; Vault_access := false |}.
Proof. split; reflexivity. Qed.

(** X2. When no weak compare-and-exchange fails spuriously, the two variants
    agree: started with no view alive on the same storage, any list of
    statements of a single thread returns under both, with the same answers
    and the same storage, and the mutex of the coarse vault free again. *)
Theorem variants_agree_without_spurious_failure {ElementData : Type}
    (st : Storage ElementData) (fuel : nat) (cs : list call) :
  quiescent st → Forall no_spurious_failure cs →
  ∃ answers st',
    run (statement (S (capacity st + fuel))) cs st = Returns answers st'
    ∧ run (coarse_statement (S (capacity st + fuel))) cs
        {| storage := st; Vault_access := false |}
      = Returns answers {| storage := st'; Vault_access := false |}.
Proof.
  intros Hq Hcalm. unfold capacity.
  exists (effects cs st).1, (effects cs st).2. split.
  - apply run_effects; [done|lia].
  - apply coarse_run_effects; [done|lia|done].
Qed.

Lemma variants_agree_without_spurious_failure_witness :
  ∃ answers st',
    run (statement 3)
      [Allocate; Write 0 (mkData 0 "2_1"); Allocate; Allocate;
       DeallocatePred prefix_pred (λ _, false); Deallocate 5; View 0; Iterate]
      (fresh 2 (mkData 0 ""))
    = Returns answers st'
    ∧ run (coarse_statement 3)
        [Allocate; Write 0 (mkData 0 "2_1"); Allocate; Allocate;
         DeallocatePred prefix_pred (λ _, false); Deallocate 5; View 0; Iterate]
        {| storage := fresh 2 (mkData 0 ""); Vault_access := false |}
      = Returns answers {| storage := st'; Vault_access := false |}.
Proof.
  apply (variants_agree_without_spurious_failure (fresh 2 (mkData 0 "")) 0).
  - repeat constructor.
  - repeat constructor.
Defined.

(** * Further facts *)

Section MoreFacts.
Context {ElementData : Type}.
Implicit Types (st : Storage ElementData) (e : Element ElementData).
Implicit Types (v : ElementView) (i j idx : nat).

(** ** Counting *)

Lemma occupied_middle (pre l : Storage ElementData) e :
  occupied (pre ++ e :: l) (length pre) = inUse e.
Proof. unfold occupied. by rewrite list_lookup_middle. Qed.

Lemma occupied_indices_length_from (pre l : Storage ElementData) :
  length (filter (λ i, occupied (pre ++ l) i = true) (seq (length pre) (length l)))
  = count_occupied l.
Proof.
  revert pre. induction l as [|e l IH]; intros pre; [done|].
  cbn [length seq]. rewrite filter_cons, occupied_middle, count_occupied_cons.
  specialize (IH (pre ++ [e])). rewrite <- app_assoc, length_app in IH.
  cbn [app length] in IH. replace (length pre + 1) with (S (length pre)) in IH by lia.
  destruct (inUse e); case_decide; try done; cbn [length Nat.b2n]; lia.
Qed.

Lemma occupied_indices_length st :
  length (occupied_indices st) = count_occupied st.
Proof. apply (occupied_indices_length_from [] st). Qed.

Lemma count_occupied_le st : count_occupied st ≤ length st.
Proof. apply length_filter. Qed.

Lemma count_occupied_vacant st : vacant st → count_occupied st = 0.
Proof.
  intros Hv. rewrite <- occupied_indices_length. unfold occupied_indices.
  induction (seq 0 (length st)) as [|i l IH]; [done|].
  rewrite filter_cons, (Hv i). by case_decide.
Qed.

(** ** dump *)

Lemma dump_for_unfold (streamed : ElementData → string) idxs st :
  (∀ i, i ∈ idxs → i < length st) →
  ∃ out,
    dump_for streamed idxs st = Returns out st
    ∧ Forall2 (λ i s, ∃ e, st !! i = Some e ∧ s = dump_line streamed i (data e))
        (filter (λ i, occupied st i = true) idxs) out
    ∧ Forall2 (λ x s, ∃ i, x.1 = Some i ∧ s = dump_line streamed i x.2)
        (omap (seen_at st) idxs) out.
Proof.
  induction idxs as [|i idxs IH]; intros Hin.
  - exists []. cbn. repeat split; constructor.
  - destruct IH as (out & Hrun & Hidx & Hseen).
    { intros j Hj. apply Hin. by right. }
    destruct (lookup_lt_is_Some_2 st i) as [e He]; [apply Hin; by left|].
    exists ((if inUse e then [dump_line streamed i (data e)] else []) ++ out).
    split; [|split].
    + cbn [dump_for]. unfold bind at 1, array_at.
      rewrite decide_True by (apply Hin; by left).
      unfold bind at 1. rewrite (through_Some i e) by done.
      unfold ret at 1, bind. by rewrite Hrun.
    + assert (Hocc : occupied st i = inUse e) by (unfold occupied; by rewrite He).
      rewrite filter_cons, Hocc.
      destruct (inUse e) eqn:Hu; case_decide; try done.
      constructor; [|done]. by exists e.
    + assert (Hs : seen_at st i = if inUse e then Some (Some i, data e) else None)
        by (unfold seen_at; by rewrite He).
      cbn [omap list_omap]. rewrite Hs.
      destruct (inUse e) eqn:Hu; [|done].
      constructor; [|done]. by exists i.
Qed.

End MoreFacts.

(** ** dump *)

(** X4. [dump] takes no mutex and never throws: in every state, also with
    views alive, it returns, leaves the storage as it was and prints one
    text per occupied slot, in ascending order of index, made of the index
    and the streamed payload of that slot; the number of texts is the number
    of occupied slots.  When no view is alive on an occupied slot, these are
    the slots and payloads a traversal from [begin( )] to [end( )] sees, in
    the same order. *)
Theorem dump_prints_the_occupied_slots {ElementData : Type}
    (streamed : ElementData → string) (st : Storage ElementData) (fuel : nat) :
  ∃ out,
    dump streamed st = Returns out st
    ∧ length out = count_occupied st
    ∧ Forall2 (λ i s, ∃ e, st !! i = Some e ∧ s = dump_line streamed i (data e))
        (occupied_indices st) out
    ∧ (traversable st →
       ∃ seen,
         traverse (S (capacity st + fuel)) visit st = Returns seen st
         ∧ Forall2 (λ x s, ∃ i, x.1 = Some i ∧ s = dump_line streamed i x.2)
             seen out).
Proof.
  destruct (dump_for_unfold streamed (seq 0 (length st)) st)
    as (out & Hrun & Hidx & Hseen).
  { intros i Hi. apply elem_of_seq in Hi. lia. }
  exists out. split; [done|]. split; [|split; [done|]].
  - rewrite <- occupied_indices_length. symmetry. by eapply Forall2_length.
  - intros Hfree. exists (omap (seen_at st) (seq 0 (length st))).
    split; [|done]. apply traverse_unfold; [done|unfold capacity; lia].
Qed.

Lemma dump_prints_the_occupied_slots_witness :
  ∃ out seen,
    dump Data_streamed [filled "1_1"; vacated "1_2"; filled "2_1"]
    = Returns out [filled "1_1"; vacated "1_2"; filled "2_1"]
    ∧ length out = 2
    ∧ traverse 4 visit [filled "1_1"; vacated "1_2"; filled "2_1"]
      = Returns seen [filled "1_1"; vacated "1_2"; filled "2_1"]
    ∧ length seen = length out.
Proof.
  destruct (dump_prints_the_occupied_slots Data_streamed
              [filled "1_1"; vacated "1_2"; filled "2_1"] 0)
    as (out & Hrun & Hlen & _ & Htrav).
  destruct Htrav as (seen & Hseen & Hsame).
  { intros [|[|[|i]]] e He; simpl in He; try discriminate;
      injection He as <-; reflexivity. }
  exists out, seen. split; [exact Hrun|]. split; [exact Hlen|].
  split; [exact Hseen|]. exact (Forall2_length _ _ _ Hsame).
Defined.

(** ** Allocations in a row *)

Section Allocations.
Context {ElementData : Type}.
Implicit Types (st : Storage ElementData) (e : Element ElementData).

Lemma effects_app (cs1 cs2 : list (@call ElementData)) st :
  effects (cs1 ++ cs2) st
  = ((effects cs1 st).1 ++ (effects cs2 (effects cs1 st).2).1,
     (effects cs2 (effects cs1 st).2).2).
Proof.
  revert st. induction cs1 as [|c cs1 IH]; intros st.
  - cbn. by destruct (effects cs2 st).
  - cbn [app effects]. rewrite IH. done.
Qed.

Lemma count_occupied_all st :
  (∀ j e, st !! j = Some e → inUse e = true) → count_occupied st = length st.
Proof.
  induction st as [|x st IH]; intros Hall; [done|].
  rewrite count_occupied_cons, (Hall 0 x eq_refl), IH; [done|].
  intros j e He. by apply (Hall (S j)).
Qed.

(** [allocate] finds no free slot exactly when every slot is occupied. *)
Lemma find_if_not_None st :
  st !! find_if_not inUse st = None → count_occupied st = length st.
Proof.
  intros Hnone. apply lookup_ge_None_1 in Hnone.
  apply count_occupied_all. intros j e He.
  apply negb_false_iff.
  apply (find_if_before (λ x, negb (inUse x)) st j e); [|done].
  apply lookup_lt_Some in He. unfold find_if_not in Hnone. lia.
Qed.

Lemma find_if_not_Some st e :
  st !! find_if_not inUse st = Some e → count_occupied st < length st.
Proof.
  intros He. pose proof (find_if_not_free st e He) as Hfree.
  apply (length_filter_lt _ _ e).
  - by eapply list_elem_of_lookup_2.
  - by rewrite Hfree.
Qed.

Lemma effects_allocate_count m st :
  successful_allocations (effects (replicate m Allocate) st).1
  = m `min` (length st - count_occupied st)
  ∧ count_occupied (effects (replicate m Allocate) st).2
    = count_occupied st + m `min` (length st - count_occupied st).
Proof.
  revert st. induction m as [|m IH]; intros st.
  { cbn [replicate effects fst snd]. split; [done|lia]. }
  cbn [replicate effects fst snd]. rewrite successful_allocations_cons.
  pose proof (effect_count Allocate st) as Hc.
  pose proof (effect_length Allocate st) as Hl.
  destruct (IH (effect Allocate st).2) as [IH1 IH2]. rewrite IH1, IH2, Hl.
  unfold effect in *. cbv zeta in *.
  destruct (st !! find_if_not inUse st) as [e|] eqn:He.
  - pose proof (find_if_not_Some st e He). cbn [fst snd] in *.
    cbn [is_allocation is_deallocation Nat.b2n] in *. lia.
  - pose proof (find_if_not_None st He). cbn [fst snd] in *.
    cbn [is_allocation Nat.b2n]. lia.
Qed.

Lemma find_if_not_replicate k n (d0 : ElementData) :
  find_if_not inUse
    (replicate k {| data := d0; access := false; inUse := true |}
     ++ replicate (S n) {| data := d0; access := false; inUse := false |})
  = k.
Proof.
  apply (find_if_first _ _ k {| data := d0; access := false; inUse := false |}).
  - rewrite lookup_app_r by (rewrite length_replicate; lia).
    rewrite length_replicate, Nat.sub_diag. done.
  - done.
  - intros j y Hj Hy. rewrite lookup_app_l in Hy by (rewrite length_replicate; lia).
    apply lookup_replicate in Hy as [-> _]. done.
Qed.

Lemma find_if_not_full st :
  (∀ j e, st !! j = Some e → inUse e = true) →
  st !! find_if_not inUse st = None.
Proof.
  intros Hall. unfold find_if_not. rewrite find_if_none.
  - by apply lookup_ge_None_2.
  - intros j e He. by rewrite (Hall j e He).
Qed.

Lemma insert_boundary k n (x y : Element ElementData) :
  <[k := x]> (replicate k x ++ replicate (S n) y)
  = replicate (S k) x ++ replicate n y.
Proof. induction k as [|k IH]; [done|]. cbn. f_equal. exact IH. Qed.

Lemma effect_allocate_boundary k n (d0 : ElementData) :
  effect Allocate
    (replicate k {| data := d0; access := false; inUse := true |}
     ++ replicate (S n) {| data := d0; access := false; inUse := false |})
  = (Allocated (Some k) true,
     replicate (S k) {| data := d0; access := false; inUse := true |}
     ++ replicate n {| data := d0; access := false; inUse := false |}).
Proof.
  unfold effect. cbv zeta. rewrite find_if_not_replicate.
  rewrite lookup_app_r by (rewrite length_replicate; lia).
  rewrite length_replicate, Nat.sub_diag.
  cbn [replicate lookup list_lookup]. f_equal.
  apply (insert_boundary k n).
Qed.

Lemma effects_allocate_fresh n k (d0 : ElementData) :
  effects (replicate n Allocate)
    (replicate k {| data := d0; access := false; inUse := true |}
     ++ replicate n {| data := d0; access := false; inUse := false |})
  = ((λ i, Allocated (Some i) true) <$> seq k n,
     replicate (k + n) {| data := d0; access := false; inUse := true |}).
Proof.
  revert k. induction n as [|n IH]; intros k.
  - cbn. by rewrite app_nil_r, Nat.add_0_r.
  - change (replicate (S n) (@Allocate ElementData))
      with (Allocate :: replicate n (@Allocate ElementData)).
    cbn [effects]. rewrite effect_allocate_boundary. cbn [fst snd].
    rewrite IH. cbn [fmap list_fmap seq fst snd]. do 2 f_equal. lia.
Qed.

End Allocations.

(** X5. From a freshly constructed vault of any capacity, as many calls of
    [allocate] as there are slots all answer success and hand out the slots
    in ascending order of index, starting at 0; the vault is then full, and
    one more call answers the default view and false, leaving it full. *)
Theorem allocate_fills_in_index_order {ElementData : Type}
    (COUNT : nat) (d0 : ElementData) (fuel : nat) :
  run (statement (S (COUNT + fuel))) (replicate COUNT Allocate ++ [Allocate])
    (fresh COUNT d0)
  = Returns
      (((λ i, Allocated (Some i) true) <$> seq 0 COUNT) ++ [Allocated None false])
      (replicate COUNT {| data := d0; access := false; inUse := true |}).
Proof.
  rewrite run_effects;
    [|apply quiescent_fresh|unfold fresh; rewrite length_replicate; lia].
  rewrite effects_app.
  pose proof (effects_allocate_fresh COUNT 0 d0) as Hfill.
  cbn [replicate app Nat.add] in Hfill. unfold fresh. rewrite Hfill.
  cbn [fst snd effects effect]. cbv zeta.
  rewrite find_if_not_full; [done|].
  intros j e He. apply lookup_replicate in He as [-> _]. done.
Qed.

Lemma allocate_fills_in_index_order_witness :
  run (statement 3) [Allocate; Allocate; Allocate] (fresh 2 (mkData 0 ""))
  = Returns [Allocated (Some 0) true; Allocated (Some 1) true; Allocated None false]
      [filled ""; filled ""].
Proof. exact (allocate_fills_in_index_order 2 (mkData 0 "") 0). Defined.

(** X6. Started with no view alive, [m] calls of [allocate] in a row succeed
    exactly as long as a slot is free: the number of successes is the smaller
    of [m] and the number of free slots, and the number of occupied slots
    grows by that much. *)
Theorem allocations_succeed_while_a_slot_is_free {ElementData : Type}
    (st : Storage ElementData) (m fuel : nat) :
  quiescent st →
  ∃ answers st',
    run (statement (S (capacity st + fuel))) (replicate m Allocate) st
    = Returns answers st'
    ∧ successful_allocations answers = m `min` (capacity st - count_occupied st)
    ∧ count_occupied st'
      = count_occupied st + m `min` (capacity st - count_occupied st).
Proof.
  intros Hq. unfold capacity.
  exists (effects (replicate m Allocate) st).1, (effects (replicate m Allocate) st).2.
  split; [apply run_effects; [done|lia]|]. apply effects_allocate_count.
Qed.

Lemma allocations_succeed_while_a_slot_is_free_witness :
  ∃ answers st',
    run (statement 4) (replicate 5 Allocate)
      [filled "1_1"; vacated "1_2"; vacated "1_3"]
    = Returns answers st'
    ∧ successful_allocations answers = 2
    ∧ count_occupied st' = 3.
Proof.
  apply (allocations_succeed_while_a_slot_is_free
           [filled "1_1"; vacated "1_2"; vacated "1_3"] 5 0).
  repeat constructor.
Defined.

(** ** Draining by predicate *)

Section Drain.
Context {ElementData : Type}.
Implicit Types (st : Storage ElementData) (e : Element ElementData).
Implicit Types (pred : ElementData → bool).

Lemma count_matching_cons pred e st :
  count_matching pred (e :: st)
  = Nat.b2n (matches pred e) + count_matching pred st.
Proof.
  unfold count_matching. rewrite filter_cons.
  destruct (matches pred e); by case_decide.
Qed.

Lemma count_matching_release pred st i e :
  st !! i = Some e → matches pred e = true →
  count_matching pred (<[i := set_inUse false e]> st) + 1
  = count_matching pred st.
Proof.
  revert i. induction st as [|x st IH]; intros i Hi Hm; [done|].
  destruct i as [|i]; simpl in *.
  - injection Hi as ->. rewrite !count_matching_cons, Hm.
    unfold matches at 1. cbn. lia.
  - rewrite !count_matching_cons. specialize (IH i Hi Hm). lia.
Qed.

Lemma drained_release pred st i e :
  st !! i = Some e → matches pred e = true →
  drained pred (<[i := set_inUse false e]> st) = drained pred st.
Proof.
  intros Hi Hm. unfold drained. rewrite list_fmap_insert.
  apply list_insert_id. rewrite list_lookup_fmap, Hi. cbn. by rewrite Hm.
Qed.

Lemma drained_none pred st :
  (∀ j e, st !! j = Some e → matches pred e = false) →
  drained pred st = st ∧ count_matching pred st = 0.
Proof.
  induction st as [|x st IH]; intros Hnone; [done|].
  destruct IH as [IHd IHc]. { intros j e He. by apply (Hnone (S j)). }
  pose proof (Hnone 0 x eq_refl) as Hx.
  unfold drained in *. rewrite count_matching_cons, IHc, fmap_cons, IHd, Hx. done.
Qed.

Lemma drain_S fuel (spurious : nat → nat → bool) pred calls :
  drain (S fuel) spurious pred calls
  = (r <- deallocate_pred (spurious calls) pred ;;
     if r.1 then n <- drain fuel spurious pred (S calls) ;; ret (S n)
     else ret 0).
Proof. done. Qed.

Lemma drain_unfold pred (spurious : nat → nat → bool) k :
  (∀ n i, spurious n i = false) →
  ∀ st calls,
    quiescent st → count_matching pred st ≤ k →
    drain (S k) spurious pred calls st
    = Returns (count_matching pred st) (drained pred st).
Proof.
  intros Hcalm. induction k as [|k IH]; intros st calls Hq Hk;
    rewrite drain_S; unfold bind at 1;
    rewrite deallocate_pred_unfold by done; cbv zeta;
    rewrite (find_if_released_calm (spurious calls) pred st (Hcalm calls));
    change (λ e, inUse e && pred (data e)) with (matches pred);
    destruct (st !! find_if (matches pred) st) as [e|] eqn:He.
  - destruct (find_if_found (matches pred) st) as (e' & He' & Hm);
      [by eapply lookup_lt_Some|].
    rewrite He in He'. injection He' as <-.
    pose proof (count_matching_release pred st _ e He Hm). lia.
  - apply lookup_ge_None_1 in He.
    destruct (drained_none pred st) as [-> ->]; [|done].
    intros j x Hx. apply (find_if_before (matches pred) st j x); [|done].
    apply lookup_lt_Some in Hx. lia.
  - destruct (find_if_found (matches pred) st) as (e' & He' & Hm);
      [by eapply lookup_lt_Some|].
    rewrite He in He'. injection He' as <-.
    pose proof (count_matching_release pred st _ e He Hm) as Hc.
    cbn [fst]. unfold bind. rewrite IH.
    + rewrite (drained_release pred st _ e He Hm). unfold ret. f_equal. lia.
    + apply quiescent_insert; [done|]. cbn. by eapply quiescent_lookup.
    + lia.
  - apply lookup_ge_None_1 in He.
    destruct (drained_none pred st) as [-> ->]; [|done].
    intros j x Hx. apply (find_if_before (matches pred) st j x); [|done].
    apply lookup_lt_Some in Hx. lia.
Qed.

End Drain.

(** X7. Started with no view alive and with no weak compare-and-exchange
    failing spuriously, the loop [while ( deallocate(pred) ) count++] of the
    tests returns after as many successful calls as there are occupied slots
    whose payload satisfies the predicate: it frees exactly those slots and
    leaves every other slot, and every payload, as it was. *)
Theorem drain_frees_every_match {ElementData : Type}
    (st : Storage ElementData) (pred : ElementData → bool)
    (spurious : nat → nat → bool) (calls fuel : nat) :
  quiescent st → (∀ n i, spurious n i = false) →
  drain (S (count_matching pred st + fuel)) spurious pred calls st
  = Returns (count_matching pred st) (drained pred st).
Proof. intros Hq Hcalm. apply drain_unfold; [done|done|lia]. Qed.

Lemma drain_frees_every_match_witness :
  drain 3 (λ _ _, false) prefix_pred 0
    [filled "2_1"; vacated "2_2"; filled "1_3"; filled "2_4"]
  = Returns 2 [vacated "2_1"; vacated "2_2"; filled "1_3"; vacated "2_4"].
Proof.
  apply (drain_frees_every_match
           [filled "2_1"; vacated "2_2"; filled "1_3"; filled "2_4"]
           prefix_pred (λ _ _, false) 0 0).
  - repeat constructor.
  - reflexivity.
Defined.

(** ** Views *)

(** X8. [view (idx)] on an index below the capacity whose mutex is free
    returns a view bound to that slot whether the slot is occupied or not
    (the liveness test of the view tells which), touches no other slot, and
    holds the mutex of the slot until it is destroyed: while it is alive a
    second [view (idx)] or a [deallocate (idx)] by the same thread never
    returns, and so does [allocate] when that slot is the free slot of lowest
    index; destroying the view puts the storage back as it was. *)
Theorem view_holds_the_slot_until_destroyed {ElementData : Type}
    (st : Storage ElementData) (idx : nat) (e : Element ElementData)
    (fuel : nat) :
  st !! idx = Some e → access e = false →
  ∃ v st1,
    view idx st = Returns v st1
    ∧ ref v = Some idx
    ∧ operator_bool v st1 = Returns (inUse e) st1
    ∧ (∀ j, j ≠ idx → st1 !! j = st !! j)
    ∧ view idx st1 = Deadlock
    ∧ deallocate idx st1 = Deadlock
    ∧ (inUse e = false → (∀ k, k < idx → occupied st k = true) →
       allocate (S fuel) st1 = Deadlock)
    ∧ ElementView_dtor v st1 = st.
Proof.
  intros He Ha. pose proof (lookup_lt_Some st idx e He) as Hlt.
  exists {| lock := Some idx; ref := Some idx |}, (<[idx := set_access true e]> st).
  assert (H1 : <[idx := set_access true e]> st !! idx = Some (set_access true e))
    by (by apply list_lookup_insert_eq).
  split; [by rewrite view_unfold, He, Ha|]. split; [done|].
  split. { unfold operator_bool. cbn [ref]. by rewrite (through_Some idx (set_access true e)). }
  split. { intros j Hj. by rewrite list_lookup_insert_ne. }
  split; [by rewrite view_unfold, H1|].
  split; [by rewrite deallocate_unfold, H1|].
  split; [|by apply unlock_lock].
  intros Hu Hlow.
  assert (Hfirst : find_if_not inUse (<[idx := set_access true e]> st) = idx).
  { apply (find_if_first _ _ idx (set_access true e)); [done|cbn; by rewrite Hu|].
    intros j y Hj Hy. rewrite list_lookup_insert_ne in Hy by lia.
    specialize (Hlow j Hj). unfold occupied in Hlow. rewrite Hy in Hlow.
    by rewrite Hlow. }
  rewrite allocate_unfold. cbv zeta. by rewrite Hfirst, H1.
Qed.

Lemma view_holds_the_slot_until_destroyed_witness :
  ∃ v st1,
    view 1 [filled "1_1"; vacated "1_2"] = Returns v st1
    ∧ operator_bool v st1 = Returns false st1
    ∧ deallocate 1 st1 = Deadlock
    ∧ allocate 1 st1 = Deadlock
    ∧ ElementView_dtor v st1 = [filled "1_1"; vacated "1_2"].
Proof.
  destruct (view_holds_the_slot_until_destroyed
              [filled "1_1"; vacated "1_2"] 1 (vacated "1_2") 0 eq_refl eq_refl)
    as (v & st1 & Hview & _ & Hlive & _ & _ & Hdealloc & Halloc & Hdtor).
  exists v, st1. split; [exact Hview|]. split; [exact Hlive|].
  split; [exact Hdealloc|]. split; [|exact Hdtor].
  apply Halloc; [reflexivity|]. intros [|k] Hk; [reflexivity|lia].
Defined.

(** X9. [deallocate] undoes [allocate]: when [allocate] has claimed slot [i]
    and the view it returned is gone, [deallocate (i)] answers true and the
    storage is exactly what it was before the allocation.  While the
    returned view is still alive, [deallocate (i)] by the same thread never
    returns. *)
Theorem deallocate_undoes_allocate {ElementData : Type}
    (st : Storage ElementData) (i : nat) (e : Element ElementData)
    (fuel : nat) :
  st !! i = Some e → inUse e = false → access e = false →
  (∀ k, k < i → occupied st k = true) →
  ∃ v st1,
    allocate (S fuel) st = Returns (v, true) st1
    ∧ ref v = Some i
    ∧ deallocate i st1 = Deadlock
    ∧ deallocate i (ElementView_dtor v st1) = Returns true st.
Proof.
  intros He Hu Ha Hlow. pose proof (lookup_lt_Some st i e He) as Hlt.
  assert (Hfirst : find_if_not inUse st = i).
  { apply (find_if_first _ st i e); [done|by rewrite Hu|].
    intros j y Hj Hy. specialize (Hlow j Hj). unfold occupied in Hlow.
    rewrite Hy in Hlow. by rewrite Hlow. }
  exists {| lock := Some i; ref := Some i |},
    (<[i := set_inUse true (set_access true e)]> st).
  split; [by rewrite allocate_unfold; cbv zeta; rewrite Hfirst, He, Ha|].
  split; [done|]. split.
  - rewrite deallocate_unfold, list_lookup_insert_eq by done. done.
  - cbn [ElementView_dtor lock]. rewrite unlock_claimed by done.
    rewrite deallocate_unfold, list_lookup_insert_eq by done.
    cbn [access inUse set_inUse]. rewrite Ha, list_insert_insert_eq.
    f_equal. apply list_insert_id. rewrite He. f_equal.
    destruct e; simpl in *; by subst.
Qed.

Lemma deallocate_undoes_allocate_witness :
  ∃ v st1,
    allocate 1 [filled "1_1"; vacated "1_2"] = Returns (v, true) st1
    ∧ ref v = Some 1
    ∧ deallocate 1 st1 = Deadlock
    ∧ deallocate 1 (ElementView_dtor v st1)
      = Returns true [filled "1_1"; vacated "1_2"].
Proof.
  apply (deallocate_undoes_allocate [filled "1_1"; vacated "1_2"] 1
           (vacated "1_2") 0 eq_refl eq_refl eq_refl).
  intros [|k] Hk; [reflexivity|lia].
Defined.

(** X10. A write through a view of an occupied slot is what a later view of
    that slot reads: [{ auto v = view(idx); if ( v ) v( ) = d; }] stores [d]
    in slot [idx] and changes nothing else, and the next
    [{ auto v = view(idx); if ( v ) read v( ); }] reads [d].  On a free slot
    the view is not live, nothing is written and nothing is read; neither
    statement throws for an index below the capacity. *)
Theorem write_then_read {ElementData : Type}
    (st : Storage ElementData) (idx : nat) (e : Element ElementData)
    (d : ElementData) :
  st !! idx = Some e → access e = false →
  (inUse e = true →
     statement_write idx d st
     = Returns (Written (Some idx) true) (<[idx := set_data d e]> st)
     ∧ statement_view idx (<[idx := set_data d e]> st)
       = Returns (Viewed (Some idx) (Some d)) (<[idx := set_data d e]> st))
  ∧ (inUse e = false →
     statement_write idx d st = Returns (Written (Some idx) false) st
     ∧ statement_view idx st = Returns (Viewed (Some idx) None) st).
Proof.
  intros He Ha. pose proof (lookup_lt_Some st idx e He) as Hlt.
  split; intros Hu.
  - split; [by rewrite statement_write_unfold, He, Ha, Hu|].
    rewrite statement_view_unfold, list_lookup_insert_eq by done.
    cbn [access inUse data set_data]. by rewrite Ha, Hu.
  - split; [by rewrite statement_write_unfold, He, Ha, Hu|].
    by rewrite statement_view_unfold, He, Ha, Hu.
Qed.

Lemma write_then_read_witness :
  statement_write 1 (mkData 7 "2_1") [filled "1_1"; filled "1_2"]
  = Returns (Written (Some 1) true)
      [filled "1_1";
       {| data := mkData 7 "2_1"; access := false; inUse := true |}]
  ∧ statement_view 1
      [filled "1_1"; {| data := mkData 7 "2_1"; access := false; inUse := true |}]
    = Returns (Viewed (Some 1) (Some (mkData 7 "2_1")))
        [filled "1_1";
         {| data := mkData 7 "2_1"; access := false; inUse := true |}].
Proof.
  destruct (write_then_read [filled "1_1"; filled "1_2"] 1 (filled "1_2")
              (mkData 7 "2_1") eq_refl eq_refl) as [Hocc _].
  exact (Hocc eq_refl).
Defined.

(** ** Iterators *)

(** X11. [begin( )] stands on the occupied slot of lowest index, or on the
    end position when no slot is occupied, so [begin( ) == end( )] exactly
    when the vault is empty.  [operator++] moves an iterator below the end
    strictly forward to the next occupied slot, or to the end position when
    there is none, skipping only free slots.  [operator*] on an iterator at
    or beyond the end position dereferences a position that is no slot. *)
Theorem iterator_walks_the_occupied_slots {ElementData : Type}
    (st : Storage ElementData) :
  (∃ first last,
     begin st = Returns first st ∧ end_ st = Returns last st
     ∧ iter last = capacity st ∧ iter first ≤ capacity st
     ∧ (iter first < capacity st → occupied st (iter first) = true)
     ∧ (∀ j, j < iter first → occupied st j = false)
     ∧ (operator_eq first last = true ↔ vacant st))
  ∧ (∀ it, iter it < capacity st →
       ∃ it', operator_incr it st = Returns it' st
         ∧ iter it < iter it' ≤ capacity st
         ∧ (iter it' < capacity st → occupied st (iter it') = true)
         ∧ ∀ j, iter it < j < iter it' → occupied st j = false)
  ∧ (∀ it, capacity st ≤ iter it → operator_star it st = Undefined).
Proof.
  unfold capacity. split; [|split].
  - exists {| iter := find_if inUse st |}, {| iter := length st |}.
    change (find_if inUse st) with (find_if_from inUse 0 st).
    pose proof (find_if_from_le inUse 0 st ltac:(lia)) as Hle.
    assert (Hbefore : ∀ j, j < find_if_from inUse 0 st → occupied st j = false).
    { intros j Hj. apply (find_if_from_free 0). lia. }
    split; [done|]. split; [done|]. split; [done|]. split; [done|].
    split; [apply find_if_from_occupied|]. split; [done|].
    unfold operator_eq. cbn [iter]. rewrite bool_decide_eq_true. split.
    + intros Heq j. destruct (decide (j < length st)) as [Hj|Hj].
      * apply Hbefore. lia.
      * unfold occupied. by rewrite lookup_ge_None_2 by lia.
    + intros Hv. destruct (decide (find_if_from inUse 0 st = length st)) as [|Hne];
        [done|].
      specialize (Hv (find_if_from inUse 0 st)).
      rewrite find_if_from_occupied in Hv by lia. done.
  - intros it Hit. exists {| iter := find_if_from inUse (iter it + 1) st |}.
    cbn [iter].
    pose proof (find_if_from_le inUse (iter it + 1) st ltac:(lia)).
    pose proof (find_if_from_ge inUse (iter it) st).
    split; [done|]. split; [lia|]. split; [apply find_if_from_occupied|].
    intros j Hj. apply (find_if_from_free (iter it + 1)). lia.
  - intros it Hit. unfold operator_star, ElementView_ctor, bind, mutex_lock.
    by rewrite through_dangling by (by apply lookup_ge_None_2).
Qed.

Lemma iterator_walks_the_occupied_slots_witness :
  ∃ it',
    operator_incr {| iter := 0 |} [filled "1_1"; vacated "1_2"; filled "1_3"]
    = Returns it' [filled "1_1"; vacated "1_2"; filled "1_3"]
    ∧ 0 < iter it' ≤ 3
  ∧ operator_star {| iter := 3 |} [filled "1_1"; vacated "1_2"; filled "1_3"]
    = Undefined.
Proof.
  destruct (iterator_walks_the_occupied_slots
              [filled "1_1"; vacated "1_2"; filled "1_3"]) as (_ & Hincr & Hstar).
  destruct (Hincr {| iter := 0 |} ltac:(simpl; lia)) as (it' & Hrun & Hpos & _).
  exists it'. split; [exact Hrun|]. split; [exact Hpos|].
  apply Hstar. simpl. lia.
Defined.

(** ** deallocate (pred) under any behaviour of the weak compare-and-exchange *)

(** X12. Whatever the weak compare-and-exchange does, a call of
    [deallocate (pred)] made while no view is alive returns, calls the
    predicate on occupied slots only, and frees at most one slot.  When it
    answers true it has freed one slot, which was occupied with a payload
    satisfying the predicate, and every occupied slot below it that
    satisfies the predicate was passed over by a spurious failure.  When it
    answers false the storage is as it was, and every occupied slot
    satisfying the predicate met a spurious failure. *)
Theorem deallocate_pred_frees_at_most_one_match {ElementData : Type}
    (st : Storage ElementData) (pred : ElementData → bool)
    (spurious : nat → bool) :
  quiescent st →
  ∃ b called st',
    deallocate_pred spurious pred st = Returns (b, called) st'
    ∧ (∀ j, j ∈ called → occupied st j = true)
    ∧ (b = true →
       ∃ i e, st !! i = Some e ∧ inUse e = true ∧ pred (data e) = true
         ∧ spurious i = false ∧ st' = <[i := set_inUse false e]> st
         ∧ ∀ j e', j < i → st !! j = Some e' → inUse e' = true →
             pred (data e') = true → spurious j = true)
    ∧ (b = false →
       st' = st
       ∧ ∀ j e', st !! j = Some e' → inUse e' = true →
           pred (data e') = true → spurious j = true).
Proof.
  intros Hq. rewrite deallocate_pred_unfold by done. cbv zeta.
  set (i := find_if (released spurious pred st) (seq 0 (length st))).
  assert (Hbefore : ∀ j e', j < i → st !! j = Some e' → inUse e' = true →
            pred (data e') = true → spurious j = true).
  { intros j e' Hj He' Hu Hp.
    pose proof (find_if_before (released spurious pred st) (seq 0 (length st)) j j
                  Hj) as Hrel.
    rewrite lookup_seq_lt in Hrel by exact (lookup_lt_Some st j e' He').
    specialize (Hrel eq_refl). unfold released in Hrel.
    rewrite He', Hu, Hp in Hrel. by destruct (spurious j). }
  destruct (st !! i) as [e|] eqn:He.
  - destruct (find_if_released spurious pred st e He) as (Hu & Hp & Hs).
    exists true, (filter (λ j, occupied st j = true) (seq 0 (S i))),
      (<[i := set_inUse false e]> st).
    split; [done|]. split; [|split; [|done]].
    + intros j Hj. by apply list_elem_of_filter in Hj as [Hj _].
    + intros _. by exists i, e.
  - apply lookup_ge_None_1 in He.
    exists false, (occupied_indices st), st.
    split; [done|]. split; [|split; [done|]].
    + intros j Hj. by apply list_elem_of_filter in Hj as [Hj _].
    + intros _. split; [done|]. intros j e' He'. apply (Hbefore j e'); [|done].
      apply lookup_lt_Some in He'. lia.
Qed.

Lemma deallocate_pred_frees_at_most_one_match_witness :
  ∃ b called st',
    deallocate_pred (λ i, bool_decide (i = 0)) prefix_pred
      [filled "2_1"; filled "1_2"; filled "2_3"]
    = Returns (b, called) st'
    ∧ ∀ j, j ∈ called → occupied [filled "2_1"; filled "1_2"; filled "2_3"] j = true.
Proof.
  destruct (deallocate_pred_frees_at_most_one_match
              [filled "2_1"; filled "1_2"; filled "2_3"] prefix_pred
              (λ i, bool_decide (i = 0)) ltac:(repeat constructor))
    as (b & called & st' & Hrun & Hcalled & _).
  exists b, called, st'. split; [exact Hrun|exact Hcalled].
Defined.

(** ** Releasing every index *)

Section Sweep.
Context {ElementData : Type}.
Implicit Types (st : Storage ElementData) (e : Element ElementData).

Lemma occupied_after_deallocate idx st j :
  occupied (effect (Deallocate idx) st).2 j
  = if decide (j = idx) then false else occupied st j.
Proof.
  unfold effect, occupied. destruct (st !! idx) as [e|] eqn:He; cbn [snd].
  - pose proof (lookup_lt_Some st idx e He). case_decide as Hj.
    + subst j. by rewrite list_lookup_insert_eq.
    + by rewrite list_lookup_insert_ne.
  - case_decide as Hj; [|done]. subst j. by rewrite He.
Qed.

Lemma deallocations_keep_free (l : list nat) st j :
  occupied st j = false →
  occupied (effects (Deallocate <$> l) st).2 j = false.
Proof.
  revert st. induction l as [|i l IH]; intros st Hfree; [done|].
  cbn [fmap list_fmap effects snd]. apply IH.
  rewrite occupied_after_deallocate. by case_decide.
Qed.

Lemma deallocations_free (l : list nat) st j :
  j ∈ l → occupied (effects (Deallocate <$> l) st).2 j = false.
Proof.
  revert st. induction l as [|i l IH]; intros st Hj; [by apply elem_of_nil in Hj|].
  cbn [fmap list_fmap effects snd].
  destruct (decide (j = i)) as [->|Hne].
  - apply deallocations_keep_free. rewrite occupied_after_deallocate.
    by rewrite decide_True.
  - apply IH. apply elem_of_cons in Hj as [?|?]; done.
Qed.

Lemma deallocations_allocate_nothing (l : list nat) st :
  successful_allocations (effects (Deallocate <$> l) st).1 = 0.
Proof.
  revert st. induction l as [|i l IH]; intros st; [done|].
  cbn [fmap list_fmap effects fst]. rewrite successful_allocations_cons, IH.
  unfold effect. by destruct (st !! i).
Qed.

Lemma deallocations_keep_payloads (l : list nat) st :
  same_payloads st (effects (Deallocate <$> l) st).2.
Proof.
  revert st. induction l as [|i l IH]; intros st; [done|].
  cbn [fmap list_fmap effects snd]. unfold same_payloads in *. rewrite IH.
  unfold effect. destruct (st !! i) as [e|] eqn:He; [|done].
  by apply (same_payloads_insert st i e).
Qed.

End Sweep.

(** X13. Started with no view alive, [deallocate (idx)] called once for every
    index from 0 up to the capacity empties the vault: the calls that answer
    true are as many as there were occupied slots, no slot is occupied
    afterwards, and every payload is still in its slot. *)
Theorem deallocating_every_index_empties_the_vault {ElementData : Type}
    (st : Storage ElementData) (fuel : nat) :
  quiescent st →
  ∃ answers st',
    run (statement (S (capacity st + fuel))) (Deallocate <$> seq 0 (capacity st)) st
    = Returns answers st'
    ∧ successful_deallocations answers = count_occupied st
    ∧ vacant st'
    ∧ same_payloads st st'.
Proof.
  intros Hq. unfold capacity.
  set (cs := Deallocate <$> seq 0 (length st)).
  exists (effects cs st).1, (effects cs st).2.
  split; [apply run_effects; [done|lia]|].
  assert (Hvacant : vacant (effects cs st).2).
  { intros j. destruct (decide (j < length st)) as [Hj|Hj].
    - apply deallocations_free. apply elem_of_seq. lia.
    - unfold occupied. rewrite lookup_ge_None_2; [done|].
      rewrite effects_length. lia. }
  split; [|split; [done|apply deallocations_keep_payloads]].
  pose proof (effects_count cs st) as Hc.
  rewrite (count_occupied_vacant _ Hvacant) in Hc.
  unfold cs in Hc at 2. rewrite deallocations_allocate_nothing in Hc. lia.
Qed.

Lemma deallocating_every_index_empties_the_vault_witness :
  ∃ answers st',
    run (statement 4) [Deallocate 0; Deallocate 1; Deallocate 2]
      [filled "1_1"; vacated "1_2"; filled "1_3"]
    = Returns answers st'
    ∧ successful_deallocations answers = 2
    ∧ vacant st'.
Proof.
  destruct (deallocating_every_index_empties_the_vault
              [filled "1_1"; vacated "1_2"; filled "1_3"] 0
              ltac:(repeat constructor))
    as (answers & st' & Hrun & Hcount & Hvacant & _).
  exists answers, st'. split; [exact Hrun|]. split; [exact Hcount|exact Hvacant].
Defined.

(** ** The mutexes a predicate release takes *)

Section Scan.
Context {ElementData : Type}.
Implicit Types (st : Storage ElementData) (e : Element ElementData).

(** [deallocate_pred_for_pass] needs the mutexes of the passed slots only. *)
Lemma deallocate_pred_for_pass_unlocked spurious (pred : ElementData → bool)
    idxs rest st :
  (∀ i, i ∈ idxs → ∃ e, st !! i = Some e ∧ access e = false) →
  (∀ i, i ∈ idxs → released spurious pred st i = false) →
  deallocate_pred_for spurious pred (idxs ++ rest) st =
  match deallocate_pred_for spurious pred rest st with
  | Returns r st' =>
      Returns (r.1, filter (λ i, occupied st i = true) idxs ++ r.2) st'
  | o => o
  end.
Proof.
  induction idxs as [|i idxs IH]; intros Hin Hmiss.
  - simpl. destruct (deallocate_pred_for spurious pred rest st) as [[b l] st'| | | |];
      done.
  - simpl. unfold bind at 1. rewrite deallocate_pred_visit_unfold.
    destruct (Hin i) as (e & He & Ha); [by left|].
    rewrite He, Ha. rewrite (Hmiss i) by (by left). cbn [fst snd].
    unfold bind. rewrite IH; cycle 1.
    { intros j Hj. apply Hin. by right. }
    { intros j Hj. apply Hmiss. by right. }
    assert (Hocc : occupied st i = inUse e) by (unfold occupied; by rewrite He).
    rewrite filter_cons, Hocc.
    destruct (deallocate_pred_for spurious pred rest st) as [[b l] st'| | | |];
      try done.
    simpl. destruct (inUse e); done.
Qed.

Lemma coarse_deallocate_pred_unfold_locked fuel (pred : ElementData → bool) st :
  coarse_deallocate_pred (S fuel) pred {| storage := st; Vault_access := false |} =
  match st !! find_if (matches pred) st with
  | None => Returns false {| storage := st; Vault_access := false |}
  | Some e =>
      if access e then Deadlock
      else Returns true
             {| storage := <[find_if (matches pred) st := set_inUse false e]> st;
                Vault_access := false |}
  end.
Proof.
  unfold coarse_deallocate_pred, scoped_lock, bind at 1, Vault_lock.
  cbn [Vault_access storage do_while]. unfold finally, bind at 1.
  unfold coarse_deallocate_pred_round, on_storage. cbn [storage Vault_access].
  change (λ e, inUse e && pred (data e)) with (matches pred).
  set (i := find_if (matches pred) st).
  pose proof (find_if_le (matches pred) st) as Hle. fold i in Hle.
  destruct (st !! i) as [e|] eqn:He.
  - pose proof (lookup_lt_Some st i e He) as Hlt.
    destruct (find_if_found (matches pred) st) as (e' & He' & Hm); [done|].
    fold i in He'. rewrite He in He'. injection He' as <-.
    apply andb_true_iff in Hm as [Hu Hp].
    rewrite decide_False by lia. unfold bind at 1.
    destruct (access e) eqn:Ha.
    + by rewrite (mutex_lock_held st i e).
    + assert (Hl : <[i := set_access true e]> st !! i = Some (set_access true e))
        by (by apply list_lookup_insert_eq).
      rewrite (mutex_lock_free st i e) by done.
      unfold finally. rewrite (through_Some i (set_access true e)) by done.
      cbn [data set_access]. rewrite Hp. cbn [negb].
      unfold bind, exchange_inUse.
      rewrite (through_Some i (set_access true e)) by done.
      cbn [inUse set_access]. rewrite Hu, list_insert_insert_eq.
      unfold ret, mutex_unlock, Vault_unlock. rewrite alter_insert.
      cbn [storage]. do 3 f_equal. destruct e; simpl in *; subst; done.
  - apply lookup_ge_None_1 in He. by rewrite decide_True by lia.
Qed.

End Scan.

(** X14. The two variants of [deallocate (pred)] take different mutexes.
    The lock-free one constructs a view on every slot it visits, occupied
    or not, so it never returns when the calling thread holds a view on a
    slot the scan reaches before it frees one.  The coarse one calls the
    predicate without the mutex of the slot and locks only the first
    occupied slot that satisfies it: with that mutex free it frees the slot
    and answers true, whatever views are alive on other slots. *)
Theorem predicate_release_waits_for_views_it_passes {ElementData : Type}
    (st : Storage ElementData) (pred : ElementData → bool)
    (spurious : nat → bool) (i j fuel : nat) (e ej : Element ElementData) :
  st !! i = Some e → matches pred e = true → access e = false →
  (∀ k ek, k < i → st !! k = Some ek → matches pred ek = false) →
  j < i → st !! j = Some ej → access ej = true →
  (∀ k ek, k < j → st !! k = Some ek → access ek = false) →
  deallocate_pred spurious pred st = Deadlock
  ∧ coarse_deallocate_pred (S fuel) pred
      {| storage := st; Vault_access := false |}
    = Returns true
        {| storage := <[i := set_inUse false e]> st; Vault_access := false |}.
Proof.
  intros He Hm Ha Hlow Hji Hej Haj Hfree.
  pose proof (lookup_lt_Some st i e He) as Hlt. split.
  - unfold deallocate_pred.
    replace (length st) with (j + S (length st - S j)) by lia.
    rewrite seq_app.
    change (seq (0 + j) (S (length st - S j)))
      with (j :: seq (S j) (length st - S j)).
    rewrite deallocate_pred_for_pass_unlocked.
    + cbn [deallocate_pred_for]. unfold bind at 1.
      by rewrite deallocate_pred_visit_unfold, Hej, Haj.
    + intros k Hk. apply elem_of_seq in Hk.
      destruct (lookup_lt_is_Some_2 st k ltac:(lia)) as [ek Hek].
      exists ek. split; [done|]. apply (Hfree k); [lia|done].
    + intros k Hk. apply elem_of_seq in Hk.
      destruct (lookup_lt_is_Some_2 st k ltac:(lia)) as [ek Hek].
      unfold released. rewrite Hek.
      pose proof (Hlow k ek ltac:(lia) Hek) as Hmk. unfold matches in Hmk.
      by rewrite Hmk.
  - rewrite coarse_deallocate_pred_unfold_locked.
    rewrite (find_if_first (matches pred) st i e) by done.
    by rewrite He, Ha.
Qed.

Lemma predicate_release_waits_for_views_it_passes_witness :
  deallocate_pred (λ _, false) prefix_pred
    [{| data := mkData 0 "1_1"; access := true; inUse := true |}; filled "2_1"]
  = Deadlock
  ∧ coarse_deallocate_pred 1 prefix_pred
      {| storage :=
           [{| data := mkData 0 "1_1"; access := true; inUse := true |};
            filled "2_1"];
         Vault_access := false |}
    = Returns true
        {| storage :=
             [{| data := mkData 0 "1_1"; access := true; inUse := true |};
              vacated "2_1"];
           Vault_access := false |}.
Proof.
  apply (predicate_release_waits_for_views_it_passes
           [{| data := mkData 0 "1_1"; access := true; inUse := true |};
            filled "2_1"]
           prefix_pred (λ _, false) 1 0 0 (filled "2_1")
           {| data := mkData 0 "1_1"; access := true; inUse := true |}
           eq_refl eq_refl eq_refl).
  - intros [|k] ek Hk Hek; [|lia]. by injection Hek as <-.
  - lia.
  - reflexivity.
  - reflexivity.
  - intros k ek Hk. lia.
Defined.

(** ** Mutexes are given back *)

Section Locks.
Context {ElementData : Type}.
Implicit Types (st : Storage ElementData) (e : Element ElementData).

#[local] Abbreviation gives_back := (respects (@same_locks ElementData)).

#[local] Instance same_locks_preorder : PreOrder (@same_locks ElementData).
Proof.
  split.
  - intros st. reflexivity.
  - intros st1 st2 st3 H12 H23. unfold same_locks in *. congruence.
Qed.

Lemma same_locks_insert st i e e' :
  st !! i = Some e → access e' = access e → same_locks st (<[i := e']> st).
Proof.
  intros He Ha. unfold same_locks. rewrite list_fmap_insert.
  apply list_insert_id. by rewrite list_lookup_fmap, He, Ha.
Qed.

Lemma gives_back_deallocate idx : gives_back (deallocate idx).
Proof.
  intros st. rewrite deallocate_unfold.
  destruct (st !! idx) as [e|] eqn:He; [|reflexivity].
  destruct (access e) eqn:Ha; [done|]. by apply (same_locks_insert st idx e).
Qed.

Lemma gives_back_deallocate_pred_for spurious (pred : ElementData → bool) idxs :
  gives_back (deallocate_pred_for spurious pred idxs).
Proof.
  induction idxs as [|i idxs IH]; cbn [deallocate_pred_for].
  - apply respects_ret. apply _.
  - apply respects_bind; [apply _| |].
    + intros st. rewrite deallocate_pred_visit_unfold.
      destruct (st !! i) as [e|] eqn:He; [|done].
      destruct (access e) eqn:Ha; [done|].
      destruct (released spurious pred st i); [|reflexivity].
      by apply (same_locks_insert st i e).
    + intros r. destruct (r.2); [apply respects_ret; apply _|].
      apply respects_bind; [apply _|apply IH|].
      intros r'. apply respects_ret. apply _.
Qed.

(** One step of a traversal, in any state. *)
Lemma visit_star_unfold st i :
  (v <- operator_star {| iter := i |} ;; finally (visit v) (ElementView_dtor v)) st
  = match st !! i with
    | None => Undefined
    | Some e =>
        if access e then Deadlock
        else if inUse e then Returns (Some i, data e) st
             else Throws EmptyAccess st
    end.
Proof.
  unfold bind at 1, operator_star. cbn [iter].
  destruct (st !! i) as [e|] eqn:He.
  - destruct (access e) eqn:Ha.
    + by rewrite (ElementView_ctor_held st i e).
    + rewrite (ElementView_ctor_free st i e) by done.
      unfold finally, visit, bind, operator_call, ElementView_dtor. cbn [ref lock].
      rewrite (through_Some i (set_access true e))
        by (apply list_lookup_insert_eq; by eapply lookup_lt_Some).
      cbn [inUse set_access data].
      destruct (inUse e); cbn; by rewrite (unlock_lock st i e).
  - unfold ElementView_ctor, bind, mutex_lock. by rewrite through_dangling.
Qed.

Lemma gives_back_traverse_from fuel it :
  gives_back (traverse_from (ElementData := ElementData) fuel visit it).
Proof.
  revert it. induction fuel as [|fuel IH]; intros it; [done|].
  cbn [traverse_from]. apply respects_bind; [apply _|by intros st|].
  intros last. destruct (operator_eq it last); [apply respects_ret; apply _|].
  apply respects_bind; [apply _| |].
  - intros st. destruct it as [i]. rewrite visit_star_unfold.
    destruct (st !! i) as [e|]; [|done].
    destruct (access e); [done|]. destruct (inUse e); reflexivity.
  - intros a. apply respects_bind; [apply _|by intros st|].
    intros it'. apply respects_bind; [apply _|apply IH|].
    intros rest. apply respects_ret. apply _.
Qed.

Lemma gives_back_traverse fuel :
  gives_back (traverse (ElementData := ElementData) fuel visit).
Proof.
  apply respects_bind; [apply _|by intros st|].
  intros first. apply gives_back_traverse_from.
Qed.

Lemma gives_back_dump (streamed : ElementData → string) :
  gives_back (dump streamed).
Proof.
  intros st. destruct (dump_for_unfold streamed (seq 0 (length st)) st)
    as (out & Hrun & _).
  - intros i Hi. apply elem_of_seq in Hi. lia.
  - unfold dump. rewrite Hrun. reflexivity.
Qed.

Lemma gives_back_view idx :
  gives_back (discard (v <- view (ElementData := ElementData) idx ;; ret (v, ()))).
Proof.
  intros st. unfold discard, bind. rewrite view_unfold.
  destruct (st !! idx) as [e|] eqn:He; [|reflexivity].
  destruct (access e) eqn:Ha; [done|]. cbn.
  rewrite (unlock_lock st idx e) by done. reflexivity.
Qed.

Lemma gives_back_allocate fuel :
  gives_back (discard (allocate (ElementData := ElementData) fuel)).
Proof.
  intros st. unfold discard, bind. destruct fuel as [|fuel]; [done|].
  rewrite allocate_unfold. cbv zeta.
  destruct (st !! find_if_not inUse st) as [e|] eqn:He; [|reflexivity].
  destruct (access e) eqn:Ha; [done|]. cbn [fst snd ElementView_dtor lock].
  rewrite unlock_claimed by done. by apply (same_locks_insert st _ e).
Qed.

End Locks.

(** X15. No call leaves a mutex held behind: in whatever state they start,
    and whether they return or throw, [deallocate (idx)],
    [deallocate (pred)], a traversal and [dump] leave every mutex as they
    found it, and so do [view (idx)] and [allocate] once the view they
    return is destroyed. *)
Theorem mutexes_are_given_back {ElementData : Type}
    (fuel idx : nat) (spurious : nat → bool) (pred : ElementData → bool)
    (streamed : ElementData → string) :
  respects same_locks (deallocate (ElementData := ElementData) idx)
  ∧ respects same_locks (deallocate_pred spurious pred)
  ∧ respects same_locks (traverse (ElementData := ElementData) fuel visit)
  ∧ respects same_locks (dump streamed)
  ∧ respects same_locks
      (discard (v <- view (ElementData := ElementData) idx ;; ret (v, ())))
  ∧ respects same_locks (discard (allocate (ElementData := ElementData) fuel)).
Proof.
  split; [apply gives_back_deallocate|].
  split; [intros st; apply gives_back_deallocate_pred_for|].
  split; [apply gives_back_traverse|].
  split; [apply gives_back_dump|].
  split; [apply gives_back_view|apply gives_back_allocate].
Qed.
